(** * Gallery: the image grid and its lightbox (src/components/Gallery.tsx)

    A shallow embedding of the React component [Gallery].  The component's
    five [useState] cells become one record; every callback is a computation
    that reads the state captured by the render that created it and emits
    setter calls, which the runtime then applies; the JSX becomes a function
    from the state to an element tree; the browser (fetch resolution, clicks,
    key presses, unmount) drives the component through a step function. *)

From Stdlib Require Import String Ascii List ZArith Lia Bool DecimalString.
Import ListNotations.
Open Scope string_scope.
Open Scope list_scope.
Open Scope Z_scope.

(** ** JavaScript values the component touches *)

Module JS.

(** A value of type [string | null | undefined]: [None] stands for both
    [null] and [undefined], which the component only ever tests for
    truthiness or against [null]. *)
Definition optstr := option string.

(** Truthiness of an optional string: absent and [''] are falsy. *)
Definition truthy (s : optstr) : bool :=
  match s with
  | Some s => negb (String.eqb s EmptyString)
  | None => false
  end.

(** [a || d] where [d] is a string. *)
Definition or_else (a : optstr) (d : string) : string :=
  match a with
  | Some s => if String.eqb s EmptyString then d else s
  | None => d
  end.

(** [`${n}`] for an integer-valued number. *)
Definition numberToString (n : Z) : string :=
  NilZero.string_of_int (Z.to_int n).

(** A [string | null | undefined] used as a JSX child: a string renders as
    its text, [null] and [undefined] render nothing. *)
Definition childText (s : optstr) : string :=
  match s with
  | Some s => s
  | None => EmptyString
  end.

(** An optional string property of a record parsed from JSON, where it
    matters whether it is missing (it then reads as [undefined]) or
    [null]. *)
Inductive property :=
| Missing
| Null
| Str (s : string).

(** The property where only its truthiness or its text matter. *)
Definition read (p : property) : optstr :=
  match p with
  | Str s => Some s
  | _ => None
  end.

(** [`${p}`]: [undefined] and [null] print as their names. *)
Definition template (p : property) : string :=
  match p with
  | Missing => "undefined"
  | Null => "null"
  | Str s => s
  end.

(** [Object.is] on two optional strings and on two optional numbers. *)
Definition sameString (a b : optstr) : bool :=
  match a, b with
  | Some x, Some y => String.eqb x y
  | None, None => true
  | _, _ => false
  end.

Definition sameNumber (a b : option Z) : bool :=
  match a, b with
  | Some x, Some y => x =? y
  | None, None => true
  | _, _ => false
  end.

(** [a[i]] on an array: [undefined] outside [0 .. length-1]. *)
Definition array_get {A} (a : list A) (i : Z) : option A :=
  if i <? 0 then None else nth_error a (Z.to_nat i).

(** [a.length] *)
Definition length {A} (a : list A) : Z := Z.of_nat (List.length a).

(** [a.map((x, index) => f x index)], counting from [k]. *)
Fixpoint mapi_from {A B} (f : A -> Z -> B) (k : Z) (a : list A) : list B :=
  match a with
  | [] => []
  | x :: a' => f x k :: mapi_from f (k + 1) a'
  end.

Definition mapi {A B} (f : A -> Z -> B) (a : list A) : list B :=
  mapi_from f 0 a.

(** Values that can be thrown or used to reject a promise. *)
Inductive value :=
| VUndefined
| VNull
| VBoolean (b : bool)
| VNumber (n : Z)
| VString (s : string)
| VObject
| VError (message : string).

(** [v instanceof Error] *)
Definition instanceofError (v : value) : bool :=
  match v with
  | VError _ => true
  | _ => false
  end.

(** [v.message] *)
Definition message (v : value) : optstr :=
  match v with
  | VError message => Some message
  | _ => None
  end.

End JS.

(** ** Data model *)

(** [interface GalleryImage].  [src] and [alt] are declared [string], but the
    records come unvalidated from the endpoint and the component guards both
    with [||], so every field except the key may be absent.  [title] is the
    one field printed through a template literal, where [null] and a missing
    property differ; the others are only tested for truthiness, defaulted
    with [||] or handed on as they are. *)
Record GalleryImage := mkImage {
  src : JS.optstr;
  alt : JS.optstr;
  id : string;
  title : JS.property;
  thumbnail : JS.optstr;
  createdTime : JS.optstr;
  takenDate : JS.optstr
}.

(** The five [useState] cells of [Gallery]. *)
Record State := mkState {
  images : list GalleryImage;
  selectedImage : JS.optstr;
  selectedImageIndex : option Z;
  loading : bool;
  error : JS.optstr
}.

(** The initial values passed to [useState]. *)
Definition initialState : State :=
  {| images := [];
     selectedImage := None;
     selectedImageIndex := None;
     loading := true;
     error := None |}.

Inductive Direction := prev | next.

(** ** Effects

    What the component's code asks of the runtime: the five state setters,
    the console, the network and the window. *)
Inductive call :=
| SetImages (data : list GalleryImage)
| SetSelectedImage (s : JS.optstr)
| SetSelectedImageIndex (i : option Z)
| SetLoading (b : bool)
| SetError (s : JS.optstr)
| ConsoleLog (line : string)
| ConsoleLogData (label : string) (data : list GalleryImage)
| ConsoleError (label : string) (err : JS.value)
| Fetch (url : string)
| AbortFetch
| AddKeydownListener
| RemoveKeydownListener
| StopPropagation
| LocationReload.

Definition isSetter (c : call) : bool :=
  match c with
  | SetImages _ | SetSelectedImage _ | SetSelectedImageIndex _
  | SetLoading _ | SetError _ => true
  | _ => false
  end.

Definition isAbort (c : call) : bool :=
  match c with
  | AbortFetch => true
  | _ => false
  end.

(** The effect of one call on the state cells. *)
Definition applyCall (st : State) (c : call) : State :=
  match c with
  | SetImages d =>
      mkState d (selectedImage st) (selectedImageIndex st) (loading st) (error st)
  | SetSelectedImage s =>
      mkState (images st) s (selectedImageIndex st) (loading st) (error st)
  | SetSelectedImageIndex i =>
      mkState (images st) (selectedImage st) i (loading st) (error st)
  | SetLoading b =>
      mkState (images st) (selectedImage st) (selectedImageIndex st) b (error st)
  | SetError s =>
      mkState (images st) (selectedImage st) (selectedImageIndex st) (loading st) s
  | _ => st
  end.

Definition applyCalls (st : State) (cs : list call) : State :=
  fold_left applyCall cs st.

(** ** Computations: a log of calls, then a value or a thrown value *)

Module Comp.

Definition M (A : Type) : Type := (list call * (A + JS.value))%type.

Definition ret {A} (a : A) : M A := ([], inl a).

Definition throw {A} (v : JS.value) : M A := ([], inr v).

Definition emit (c : call) : M unit := ([c], inl tt).

Definition bind {A B} (m : M A) (k : A -> M B) : M B :=
  match m with
  | (l, inl a) => let (l', r) := k a in (l ++ l', r)
  | (l, inr v) => (l, inr v)
  end.

(** [try { body } catch (err) { handler err }] *)
Definition try_catch {A} (body : M A) (handler : JS.value -> M A) : M A :=
  match body with
  | (l, inl a) => (l, inl a)
  | (l, inr v) => let (l', r) := handler v in (l ++ l', r)
  end.

(** [try { body } finally { fin }] where [fin] does not return. *)
Definition try_finally {A} (body : M A) (fin : M unit) : M A :=
  match body, fin with
  | (l, r), (l', inl _) => (l ++ l', r)
  | (l, _), (l', inr v) => (l ++ l', inr v)
  end.

(** [a.forEach(f)] *)
Fixpoint forEach {A} (f : A -> M unit) (a : list A) : M unit :=
  match a with
  | [] => ret tt
  | x :: a' => bind (f x) (fun _ => forEach f a')
  end.

Definition calls {A} (m : M A) : list call := fst m.

Definition throws {A} (m : M A) : bool :=
  match snd m with
  | inl _ => false
  | inr _ => true
  end.

End Comp.

Notation "x <- m ;; k" := (Comp.bind m (fun x => k))
  (at level 61, m at next level, right associativity).
Notation "m ;;; k" := (Comp.bind m (fun _ => k))
  (at level 61, right associativity).

(** ** The network *)

(** What [await response.json()] yields. *)
Inductive Body :=
| JsonArray (data : list GalleryImage)
| JsonThrows (v : JS.value).

Record Response := mkResponse {
  status : Z;
  statusText : string;
  json : Body
}.

(** [response.ok]: the status is in the range 200-299. *)
Definition ok (r : Response) : bool :=
  (200 <=? status r) && (status r <=? 299).

(** How [await fetch('/api/gallery')] settles. *)
Inductive Settled :=
| Fulfilled (r : Response)
| Rejected (reason : JS.value).

Definition awaitFetch (s : Settled) : Comp.M Response :=
  match s with
  | Fulfilled r => Comp.ret r
  | Rejected v => Comp.throw v
  end.

Definition awaitJson (r : Response) : Comp.M (list GalleryImage) :=
  match json r with
  | JsonArray d => Comp.ret d
  | JsonThrows v => Comp.throw v
  end.

(** ** Element trees

    What a render returns.  Tags are written as in the JSX; an [onClick]
    closure is the computation it runs, already specialised to the state of
    the render that created it.  React keys and the animation and styling
    props of [motion.*] and [Image] (variants, whileHover, sizes, ...) are
    left out. *)
#[warnings="-register-all"]
Inductive element :=
| Text (s : string)
| Elem (tag className : string) (onClick : option (Comp.M unit))
       (children : list element)
| Image (src alt className : string)
| Svg (className d : string).

Definition children (e : element) : list element :=
  match e with
  | Elem _ _ _ cs => cs
  | _ => []
  end.

Definition onClick (e : element) : list (Comp.M unit) :=
  match e with
  | Elem _ _ (Some h) _ => [h]
  | _ => []
  end.

(** The text a node shows: its text leaves, in document order. *)
Fixpoint textContent (e : element) : string :=
  match e with
  | Text s => s
  | Elem _ _ _ cs => String.concat EmptyString (map textContent cs)
  | _ => EmptyString
  end.

(** A node and everything below it, in document order. *)
Fixpoint descendants (e : element) : list element :=
  e :: match e with
       | Elem _ _ _ cs => flat_map descendants cs
       | _ => []
       end.

(** Every click handler attached somewhere in the tree. *)
Fixpoint allHandlers (e : element) : list (Comp.M unit) :=
  match e with
  | Elem _ _ h cs =>
      match h with Some h => [h] | None => [] end ++ flat_map allHandlers cs
  | _ => []
  end.

(** The handlers met on the way from the root down to the node at [path]
    (child positions), outermost first; [None] if there is no such node. *)
Fixpoint handlersAlong (path : list nat) (e : element)
  : option (list (Comp.M unit)) :=
  match path with
  | [] => Some (onClick e)
  | k :: path' =>
      match nth_error (children e) k with
      | None => None
      | Some c =>
          match handlersAlong path' c with
          | None => None
          | Some hs => Some (onClick e ++ hs)
          end
      end
  end.

Definition stopsPropagation (h : Comp.M unit) : bool :=
  existsb (fun c => match c with StopPropagation => true | _ => false end)
          (Comp.calls h).

(** A click bubbles: handlers run from the target outwards until one of them
    has called [e.stopPropagation()]. *)
Fixpoint dispatch (innermostFirst : list (Comp.M unit)) : Comp.M unit :=
  match innermostFirst with
  | [] => Comp.ret tt
  | h :: hs =>
      h ;;; if stopsPropagation h then Comp.ret tt else dispatch hs
  end.

(** ** Sample data

    Records as the endpoint might return them: a complete one, one with
    only an upload date, one whose [src] and [alt] are empty strings and
    one with only a taken date; and a stand-in for the platform's date
    formatter that prints a date as it is given. *)

Definition imageA : GalleryImage :=
  mkImage (Some "a.jpg") (Some "A") "a" (JS.Str "First") None
          (Some "2024-01-01") (Some "2023-12-31").

Definition imageB : GalleryImage :=
  mkImage (Some "b.jpg") (Some "B") "b" JS.Null None (Some "2024-01-02")
          None.

Definition imageC : GalleryImage :=
  mkImage (Some EmptyString) (Some EmptyString) "c" JS.Missing None None
          None.

Definition imageD : GalleryImage :=
  mkImage (Some "d.jpg") (Some "D") "d" JS.Missing None None
          (Some "2023-11-30").

Definition isoDate (s : string) : string := s.

Definition okResponse (data : list GalleryImage) : Response :=
  mkResponse 200 "OK" (JsonArray data).

Definition galleryState (selected : JS.optstr) (index : option Z) : State :=
  mkState [imageA; imageB; imageC] selected index false None.

(** ** The component *)

Section Gallery.

(** [new Date(s).toLocaleDateString('en-US', { year: 'numeric',
    month: 'short', day: 'numeric' })], supplied by the platform. *)
Variable toLocaleDateString : string -> string.

Definition formatDate (dateString : JS.optstr) : string :=
  match dateString with
  | Some s => if String.eqb s EmptyString then EmptyString else toLocaleDateString s
  | None => EmptyString
  end.

(** *** fetchImages

    The body of [fetchImages] up to its first [await] ... *)
Definition fetchImages_start : Comp.M unit :=
  Comp.emit (SetLoading true) ;;;
  Comp.emit (Fetch "/api/gallery").

(** ... the rest of the [try] block, once the fetch has settled ... *)
Definition fetchImages_try (settled : Settled) : Comp.M unit :=
  response <- awaitFetch settled ;;
  (if negb (ok response)
   then Comp.throw (JS.VError
          ("Failed to fetch images: " ++ JS.numberToString (status response)
             ++ " " ++ statusText response)%string)
   else Comp.ret tt) ;;;
  data <- awaitJson response ;;
  Comp.emit (ConsoleLogData "Fetched gallery images:" data) ;;;
  (if JS.length data >? 0
   then
     Comp.emit (ConsoleLog "Image dates (should be newest first):") ;;;
     Comp.forEach
       (fun p : GalleryImage * Z =>
          let (img, i) := p in
          Comp.emit (ConsoleLog
            (JS.numberToString (i + 1) ++ ". " ++ JS.template (title img)
               ++ ": " ++ formatDate (createdTime img))%string))
       (JS.mapi pair (firstn 5 data))
   else Comp.ret tt) ;;;
  Comp.emit (SetImages data).

(** ... the [catch] block ... *)
Definition fetchImages_catch (err : JS.value) : Comp.M unit :=
  Comp.emit (SetError
    (if JS.instanceofError err then JS.message err
     else Some "Failed to load gallery images")) ;;;
  Comp.emit (ConsoleError "Error fetching gallery images:" err).

(** ... and the whole continuation, with its [finally]. *)
Definition fetchImages_resume (settled : Settled) : Comp.M unit :=
  Comp.try_finally
    (Comp.try_catch (fetchImages_try settled) fetchImages_catch)
    (Comp.emit (SetLoading false)).

(** The first [useEffect]: it calls [fetchImages()] and returns nothing,
    so it has no cleanup. *)
Definition fetchEffect : Comp.M unit := fetchImages_start.
Definition fetchEffect_cleanup : Comp.M unit := Comp.ret tt.

(** *** The lightbox callbacks *)

Definition openImage (src : string) (index : Z) : Comp.M unit :=
  Comp.emit (SetSelectedImage (Some src)) ;;;
  Comp.emit (SetSelectedImageIndex (Some index)).

Definition closeImage : Comp.M unit :=
  Comp.emit (SetSelectedImage None) ;;;
  Comp.emit (SetSelectedImageIndex None).

(** [images[newIndex].src] raises a TypeError when [images[newIndex]] is
    undefined. *)
Definition navigateImage (st : State) (direction : Direction)
  : Comp.M unit :=
  match selectedImageIndex st with
  | None => Comp.ret tt
  | Some i =>
      if JS.length (images st) =? 0 then Comp.ret tt
      else
        let newIndex :=
          match direction with
          | prev => if i >? 0 then i - 1 else JS.length (images st) - 1
          | next => if i <? JS.length (images st) - 1 then i + 1 else 0
          end in
        match JS.array_get (images st) newIndex with
        | None =>
            Comp.throw (JS.VError
              "Cannot read properties of undefined (reading 'src')")
        | Some img =>
            Comp.emit (SetSelectedImage (src img)) ;;;
            Comp.emit (SetSelectedImageIndex (Some newIndex))
        end
  end.

(** *** Keyboard navigation: the second [useEffect] *)

Definition handleKeyDown (st : State) (key : string) : Comp.M unit :=
  if negb (JS.truthy (selectedImage st)) then Comp.ret tt
  else if String.eqb key "Escape" then closeImage
  else if String.eqb key "ArrowLeft" then navigateImage st prev
  else if String.eqb key "ArrowRight" then navigateImage st next
  else Comp.ret tt.

(** The effect adds the listener and returns the function that removes it;
    it runs after the first render and again, cleanup first, whenever one
    of [selectedImage, closeImage, navigateImage] has changed, so the
    listener in place always closes over the current state. *)
Definition keydownEffect : Comp.M unit := Comp.emit AddKeydownListener.
Definition keydownEffect_cleanup : Comp.M unit :=
  Comp.emit RemoveKeydownListener.

(** *** Rendering *)

Definition page (content : list element) : element :=
  Elem "div" "container mx-auto px-4 py-16" None content.

Definition centered (content : list element) : element :=
  page [Elem "div" "min-h-[400px] flex items-center justify-center" None
          content].

Definition panel (content : list element) : element :=
  centered
    [Elem "div" "text-center bg-gray-50 p-6 rounded-lg shadow-md max-w-md"
          None content].

(** [if (loading) return ...] *)
Definition loadingView : element :=
  centered
    [Elem "div" "text-center" None
       [Elem "div"
             "w-16 h-16 border-4 border-gray-500 border-t-transparent rounded-full animate-spin mx-auto mb-4"
             None [];
        Elem "p" "text-xl text-gray-700" None [Text "Loading gallery..."]]].

(** [if (error) return ...] *)
Definition errorView (error : string) : element :=
  panel
    [Svg "h-12 w-12 text-gray-500 mx-auto mb-4"
         "M12 8v4m0 4h.01M21 12a9 9 0 11-18 0 9 9 0 0118 0z";
     Elem "h3" "text-xl font-bold text-gray-800 mb-2" None
          [Text "Failed to load gallery"];
     Elem "p" "text-gray-700" None [Text error];
     Elem "button"
          "mt-4 px-4 py-2 bg-black text-white rounded-md hover:bg-gray-800 transition-colors"
          (Some (Comp.emit LocationReload))
          [Text "Try Again"]].

(** [if (images.length === 0) return ...] *)
Definition emptyView : element :=
  panel
    [Svg "h-12 w-12 text-gray-500 mx-auto mb-4"
         "M4 16l4.586-4.586a2 2 0 012.828 0L16 16m-2-2l1.586-1.586a2 2 0 012.828 0L20 14m-6-6h.01M6 20h12a2 2 0 002-2V6a2 2 0 00-2-2H6a2 2 0 00-2 2v12a2 2 0 002 2z";
     Elem "h3" "text-xl font-bold text-gray-800 mb-2" None
          [Text "No Images Found"];
     Elem "p" "text-gray-700" None
          [Text "There are no images available in the gallery. Please check your Google Drive folder."]].

(** [{c ? <p>Taken ...</p> : d && <p>Uploaded ...</p>}], the date line of
    a tile ([tag] is [p]) and of the lightbox ([tag] is [div]). *)
Definition dateLine (tag className : string) (img : GalleryImage)
  : list element :=
  if JS.truthy (takenDate img) then
    [Elem tag className None
          [Text "Taken "; Text (formatDate (takenDate img))]]
  else if JS.truthy (createdTime img) then
    [Elem tag className None
          [Text "Uploaded "; Text (formatDate (createdTime img))]]
  else [].

Definition tileDateLine : GalleryImage -> list element :=
  dateLine "p" "text-white/75 text-sm mt-1".

Definition badgeClass : string :=
  "bg-white/20 backdrop-blur-sm px-4 py-2 rounded-full text-white text-sm".

Definition lightboxDateLine : GalleryImage -> list element :=
  dateLine "div" badgeClass.

(** One grid tile: the body of [images.map((img, index) => ...)]. *)
Definition tile (img : GalleryImage) (index : Z) : element :=
  Elem "motion.div"
       "overflow-hidden rounded-2xl shadow-lg bg-transparent cursor-pointer"
       (Some (openImage (JS.or_else (src img) EmptyString) index))
    [Elem "div" "relative w-full aspect-[3/4] group" None
       [Image (JS.or_else (src img) (JS.or_else (src img) EmptyString))
              (JS.or_else (alt img) "Gallery image")
              "object-cover transition-all duration-500 ale rounded-2xl";
        Elem "div"
             "absolute bottom-0 left-0 right-0 bg-gradient-to-t from-black/80 to-transparent p-4 rounded-b-2xl"
             None
             ((if JS.truthy (JS.read (title img))
               then [Elem "p" "text-white font-semibold" None
                          [Text (JS.childText (JS.read (title img)))]]
               else [])
              ++ tileDateLine img)]].

Definition grid (st : State) : element :=
  Elem "motion.div"
       "grid grid-cols-1 sm:grid-cols-2 lg:grid-cols-3 xl:grid-cols-4 gap-6"
       None
       (JS.mapi tile (images st)).

Definition arrowClass (side : string) : string :=
  ("absolute top-[50%] " ++ side ++ " bg-white/20 hover:bg-white/40 rounded-full w-12 h-12 flex items-center justify-center shadow-lg backdrop-blur-sm transform -translate-y-1/2")%string.

Definition counter (st : State) (index : Z) : element :=
  Elem "div" badgeClass None
       [Text (JS.numberToString (index + 1) ++ " / "
                ++ JS.numberToString (JS.length (images st)))%string].

(** The modal, for a truthy [selectedImage] and a non-null
    [selectedImageIndex] whose record is [img]. *)
Definition lightbox (st : State) (selected : string) (index : Z)
           (img : GalleryImage) : element :=
  Elem "motion.div"
       "fixed inset-0 bg-black/95 z-50 flex items-center justify-center p-4 backdrop-blur-sm"
       (Some closeImage)
    [Elem "motion.div"
          "relative max-w-6xl max-h-[90vh] w-full flex items-center justify-center"
          (Some (Comp.emit StopPropagation))
       [Elem "div" "relative w-full h-[85vh] max-w-[85vw]" None
             [Image selected "Enlarged view" "object-contain rounded-3xl"];
        Elem "motion.button" (arrowClass "left-4")
             (Some (Comp.emit StopPropagation ;;; navigateImage st prev))
             [Svg "h-6 w-6 text-white" "M15 19l-7-7 7-7"];
        Elem "motion.button" (arrowClass "right-4")
             (Some (Comp.emit StopPropagation ;;; navigateImage st next))
             [Svg "h-6 w-6 text-white" "M9 5l7 7-7 7"];
        Elem "motion.button"
             "absolute top-4 right-4 bg-white/20 hover:bg-white/40 rounded-full w-10 h-10 flex items-center justify-center shadow-lg backdrop-blur-sm"
             (Some (Comp.emit StopPropagation ;;; closeImage))
             [Svg "h-6 w-6 text-white" "M6 18L18 6M6 6l12 12"];
        Elem "div"
             "absolute bottom-4 left-0 right-0 flex justify-center items-center gap-4 flex-wrap"
             None
             (counter st index :: lightboxDateLine img)]].

(** [{selectedImage && selectedImageIndex !== null && (...)}]: the children
    of [AnimatePresence]; [None] when [images[selectedImageIndex]] is
    undefined and reading its [takenDate] raises a TypeError. *)
Definition modal (st : State) : option (list element) :=
  match selectedImage st, selectedImageIndex st with
  | Some selected, Some index =>
      if JS.truthy (Some selected) then
        match JS.array_get (images st) index with
        | Some img => Some [lightbox st selected index img]
        | None => None
        end
      else Some []
  | _, _ => Some []
  end.

(** The component function, after its hooks: [None] when rendering
    throws. *)
Definition render (st : State) : option element :=
  if loading st then Some loadingView
  else if JS.truthy (error st) then
    Some (errorView (JS.childText (error st)))
  else if JS.length (images st) =? 0 then Some emptyView
  else
    match modal st with
    | Some m => Some (page [grid st; Elem "AnimatePresence" EmptyString None m])
    | None => None
    end.

(** The condition under which the modal is shown. *)
Definition lightboxOpen (st : State) : bool :=
  JS.truthy (selectedImage st)
  && match selectedImageIndex st with Some _ => true | None => false end.

(** *** The runtime

    What surrounds the component: whether it is mounted (and then its
    state), whether its request is still in flight, and everything the
    component's code has asked for so far.  A batch of setter calls is
    followed by one re-render and by the effects whose dependencies have
    changed. *)
Record World := mkWorld {
  component : option State;
  inflight : bool;
  trace : list call
}.

Definition mountEffects : Comp.M unit := fetchEffect ;;; keydownEffect.

Definition unmountEffects : Comp.M unit :=
  fetchEffect_cleanup ;;; keydownEffect_cleanup.

(** A page load: first render, then the effects. *)
Definition mount (before : list call) : World :=
  {| component := Some (applyCalls initialState (Comp.calls mountEffects));
     inflight := true;
     trace := before ++ Comp.calls mountEffects |}.

Inductive Event :=
| Settle (settled : Settled)
| KeyDown (key : string)
| Click (target : list nat)
| Unmount.

Inductive Outcome :=
| Next (w : World)
| Impossible
| Uncaught (v : JS.value).

Definition reloads (cs : list call) : bool :=
  existsb (fun c => match c with LocationReload => true | _ => false end) cs.

Definition isSetImages (c : call) : bool :=
  match c with
  | SetImages _ => true
  | _ => false
  end.

(** Whether the dependencies [selectedImage, closeImage, navigateImage] of
    the keydown effect differ between the render of [st] and the render
    after the calls [cs].  [closeImage] has no dependencies and never
    changes; [navigateImage] is made anew when [selectedImageIndex] or
    [images] change, and [setImages] always stores a new array.  A cell
    that is [None] before and after counts as unchanged: [closeImage] and
    [navigateImage] are only reached from an open lightbox, where the
    [null] or [undefined] they store replaces a string. *)
Definition keydownDepsChanged (st : State) (cs : list call) : bool :=
  negb (JS.sameString (selectedImage st) (selectedImage (applyCalls st cs)))
  || negb (JS.sameNumber (selectedImageIndex st)
                         (selectedImageIndex (applyCalls st cs)))
  || existsb isSetImages cs.

(** The effects that run after the re-render that follows [cs]: the keydown
    effect's cleanup and then the effect itself, if its dependencies have
    changed; the fetch effect has none and never runs again. *)
Definition rerunEffects (st : State) (cs : list call) : list call :=
  if keydownDepsChanged st cs
  then Comp.calls keydownEffect_cleanup ++ Comp.calls keydownEffect
  else [].

(** Apply a batch of calls made while the component is mounted with state
    [st]. *)
Definition update (w : World) (st : State) (cs : list call) : World :=
  {| component := Some (applyCalls st cs);
     inflight := inflight w;
     trace := trace w ++ cs ++ rerunEffects st cs |}.

(** Run an event handler created by the render of [st]. *)
Definition run (w : World) (st : State) (m : Comp.M unit) : Outcome :=
  match m with
  | (cs, inl _) =>
      if reloads cs then Next (mount (trace w ++ cs))
      else Next (update w st cs)
  | (_, inr v) => Uncaught v
  end.

Definition step (w : World) (ev : Event) : Outcome :=
  match ev with
  | Settle settled =>
      if inflight w then
        match fetchImages_resume settled with
        | (cs, inl _) =>
            match component w with
            | Some st =>
                Next {| component := Some (applyCalls st cs);
                        inflight := false;
                        trace := trace w ++ cs ++ rerunEffects st cs |}
            | None =>
                Next {| component := None;
                        inflight := false;
                        trace := trace w ++ cs |}
            end
        | (_, inr v) => Uncaught v
        end
      else Impossible
  | KeyDown key =>
      match component w with
      | Some st => run w st (handleKeyDown st key)
      | None => Impossible
      end
  | Click target =>
      match component w with
      | Some st =>
          match render st with
          | Some tree =>
              match handlersAlong target tree with
              | Some hs => run w st (dispatch (rev hs))
              | None => Impossible
              end
          | None => Impossible
          end
      | None => Impossible
      end
  | Unmount =>
      match component w with
      | Some _ =>
          Next {| component := None;
                  inflight := inflight w;
                  trace := trace w ++ Comp.calls unmountEffects |}
      | None => Impossible
      end
  end.

(** Run a sequence of events; [None] as soon as one cannot happen or
    raises. *)
Fixpoint steps (w : World) (evs : list Event) : option World :=
  match evs with
  | [] => Some w
  | ev :: evs' =>
      match step w ev with
      | Next w' => steps w' evs'
      | _ => None
      end
  end.

Inductive reachable : World -> Prop :=
| reachable_mount : reachable (mount [])
| reachable_step w ev w' :
    reachable w -> step w ev = Next w' -> reachable w'.

(** [navigateImage] applied [k] times, each time from the state the
    previous call produced; [None] if one of them raises. *)
Fixpoint navigateTimes (k : nat) (direction : Direction) (st : State)
  : option State :=
  match k with
  | O => Some st
  | S k' =>
      match navigateImage st direction with
      | (cs, inl _) => navigateTimes k' direction (applyCalls st cs)
      | (_, inr _) => None
      end
  end.

(** *** Notions used in the statements *)

(** The index [navigateImage] moves to. *)
Definition target (direction : Direction) (n i : Z) : Z :=
  match direction with
  | prev => if i >? 0 then i - 1 else n - 1
  | next => if i <? n - 1 then i + 1 else 0
  end.

(** The selection is consistent with the loaded images: a selected index
    points at a record, and a truthy [selectedImage] comes with an
    index. *)
Definition wellFormed (st : State) : Prop :=
  (forall i, selectedImageIndex st = Some i ->
             0 <= i < JS.length (images st))
  /\ (JS.truthy (selectedImage st) = true -> selectedImageIndex st <> None).

(** Nothing has asked for the request to be aborted, and until the
    request settles the component is in its initial state. *)
Definition invariant (w : World) : Prop :=
  existsb isAbort (trace w) = false
  /\ match component w with
     | Some st => wellFormed st /\ (inflight w = true -> st = initialState)
     | None => True
     end.

(** A handler that returns normally, aborts nothing and keeps the
    selection consistent with a fixed array of images. *)
Definition preserving (imgs : list GalleryImage) (h : Comp.M unit) : Prop :=
  exists cs,
    h = (cs, inl tt)
    /\ existsb isAbort cs = false
    /\ forall st, images st = imgs -> wellFormed st ->
                  images (applyCalls st cs) = imgs
                  /\ wellFormed (applyCalls st cs).

(** Some node of the tree shows exactly [text]. *)
Definition shows (text : string) (tree : element) : bool :=
  existsb (fun e => String.eqb (textContent e) text) (descendants tree).

Definition isConsole (c : call) : bool :=
  match c with
  | ConsoleLog _ | ConsoleLogData _ _ | ConsoleError _ _ => true
  | _ => false
  end.

(** A grid tile: the clickable [motion.div] built by [tile]. *)
Definition isTile (e : element) : bool :=
  match e with
  | Elem tag cls (Some _) _ =>
      String.eqb tag "motion.div"
      && String.eqb cls
           "overflow-hidden rounded-2xl shadow-lg bg-transparent cursor-pointer"
  | _ => false
  end.

(** The text of the lightbox counter for index [i] among [n] images. *)
Definition counterText (i n : Z) : string :=
  (JS.numberToString (i + 1) ++ " / " ++ JS.numberToString n)%string.

(** The world after a page load followed by [evs]. *)
Definition afterEvents (evs : list Event) : World :=
  match steps (mount []) evs with
  | Some w => w
  | None => mount []
  end.

(** *** Where things are in the tree

    Child positions from the root of what [render] returns: in the grid view
    the root has the grid and then [AnimatePresence]; in the error view the
    button is the fourth child of the panel. *)
Definition tilePath (i : Z) : list nat := [0%nat; Z.to_nat i].
Definition backdropPath : list nat := [1%nat; 0%nat].
Definition contentPath : list nat := [1%nat; 0%nat; 0%nat].
Definition enlargedImagePath : list nat :=
  [1%nat; 0%nat; 0%nat; 0%nat; 0%nat].
Definition prevButtonPath : list nat := [1%nat; 0%nat; 0%nat; 1%nat].
Definition nextButtonPath : list nat := [1%nat; 0%nat; 0%nat; 2%nat].
Definition closeButtonPath : list nat := [1%nat; 0%nat; 0%nat; 3%nat].
Definition counterPath : list nat :=
  [1%nat; 0%nat; 0%nat; 4%nat; 0%nat].
Definition tryAgainPath : list nat := [0%nat; 0%nat; 3%nat].

(** The click handlers a render of [st] attaches: the reload button, a tile,
    the backdrop, the modal's content and its three buttons. *)
Inductive attached (st : State) : Comp.M unit -> Prop :=
| attached_reload : attached st (Comp.emit LocationReload)
| attached_tile img i :
    JS.array_get (images st) i = Some img ->
    attached st (openImage (JS.or_else (src img) EmptyString) i)
| attached_backdrop : attached st closeImage
| attached_content : attached st (Comp.emit StopPropagation)
| attached_arrow d :
    attached st (Comp.emit StopPropagation ;;; navigateImage st d)
| attached_close :
    attached st (Comp.emit StopPropagation ;;; closeImage).

(** The two selection cells together. *)
Definition selection (st : State) : JS.optstr * option Z :=
  (selectedImage st, selectedImageIndex st).

(** A selection the callbacks can leave behind over the array [imgs]:
    nothing, or the index of a record together with that record's [src]
    (as [openImage] gets it from a tile, or as [navigateImage] reads it). *)
Definition chosen (imgs : list GalleryImage) (p : JS.optstr * option Z)
  : Prop :=
  p = (None, None)
  \/ exists i img,
       JS.array_get imgs i = Some img
       /\ snd p = Some i
       /\ (fst p = Some (JS.or_else (src img) EmptyString)
           \/ fst p = src img).

(** A handler that returns normally and touches nothing but the selection,
    which it leaves as it was or as a chosen one. *)
Definition lightboxOnly (imgs : list GalleryImage) (h : Comp.M unit)
  : Prop :=
  exists cs,
    h = (cs, inl tt)
    /\ forall st, images st = imgs ->
         images (applyCalls st cs) = imgs
         /\ loading (applyCalls st cs) = loading st
         /\ error (applyCalls st cs) = error st
         /\ (selection (applyCalls st cs) = selection st
             \/ chosen imgs (selection (applyCalls st cs))).

(** Once the request has settled, loading is over and at most one of the
    array and the error is filled; the selection is always a chosen one. *)
Definition settledInvariant (w : World) : Prop :=
  match component w with
  | Some st =>
      (inflight w = false ->
         loading st = false /\ (images st = [] \/ error st = None))
      /\ chosen (images st) (selection st)
  | None => True
  end.

(** The message the [catch] block stores for a thrown value. *)
Definition surfaced (v : JS.value) : string :=
  match v with
  | JS.VError message => message
  | _ => "Failed to load gallery images"
  end.

(** What a settled request amounts to for [fetchImages]: the parsed array,
    or the value its [try] block throws. *)
Definition outcome (settled : Settled) : list GalleryImage + JS.value :=
  match settled with
  | Rejected v => inr v
  | Fulfilled r =>
      if ok r then
        match json r with
        | JsonArray data => inl data
        | JsonThrows v => inr v
        end
      else
        inr (JS.VError
               ("Failed to fetch images: " ++ JS.numberToString (status r)
                  ++ " " ++ statusText r)%string)
  end.

(** Key presses and clicks, as opposed to what the network and the page do. *)
Definition interaction (ev : Event) : bool :=
  match ev with
  | KeyDown _ | Click _ => true
  | _ => false
  end.

(** The key that [handleKeyDown] maps to a direction. *)
Definition arrowKey (d : Direction) : string :=
  match d with
  | prev => "ArrowLeft"
  | next => "ArrowRight"
  end.

Definition arrowButtonPath (d : Direction) : list nat :=
  match d with
  | prev => prevButtonPath
  | next => nextButtonPath
  end.

(** The state with nothing selected. *)
Definition deselected (st : State) : State :=
  mkState (images st) None None (loading st) (error st).

(** ** Properties *)

(** *** Arrays and setter calls *)

Lemma array_get_Some {A} (a : list A) (i : Z) :
  0 <= i < JS.length a -> exists x, JS.array_get a i = Some x.
Proof.
  unfold JS.array_get, JS.length. intros H.
  destruct (Z.ltb_spec i 0) as [Hneg | _]; [lia |].
  destruct (nth_error a (Z.to_nat i)) as [x |] eqn:E; [now exists x |].
  apply nth_error_None in E. lia.
Qed.

Lemma array_get_bounds {A} (a : list A) (i : Z) (x : A) :
  JS.array_get a i = Some x -> 0 <= i < JS.length a.
Proof.
  unfold JS.array_get, JS.length.
  destruct (Z.ltb_spec i 0) as [Hneg | Hpos]; [discriminate |].
  intros E.
  assert (Hlt : (Z.to_nat i < List.length a)%nat)
    by (apply nth_error_Some; congruence).
  lia.
Qed.

Lemma array_get_nth {A} (a : list A) (i : Z) (x : A) :
  JS.array_get a i = Some x -> nth_error a (Z.to_nat i) = Some x.
Proof.
  unfold JS.array_get. now destruct (i <? 0).
Qed.

Lemma applyCalls_app st cs cs' :
  applyCalls st (cs ++ cs') = applyCalls (applyCalls st cs) cs'.
Proof. apply fold_left_app. Qed.

Lemma applyCalls_inert cs :
  forallb (fun c => negb (isSetter c)) cs = true ->
  forall st, applyCalls st cs = st.
Proof.
  induction cs as [| c cs IH]; intros H st; [reflexivity |].
  cbn in H. apply andb_true_iff in H as [Hc Hcs].
  cbn. rewrite <- (IH Hcs st) at 2. f_equal.
  destruct c; try discriminate; reflexivity.
Qed.

(** *** navigateImage *)

Lemma target_bounds d n i : 0 <= i < n -> 0 <= target d n i < n.
Proof.
  intros H. destruct d; cbn.
  - destruct (Z.gtb_spec i 0); lia.
  - destruct (Z.ltb_spec i (n - 1)); lia.
Qed.

Lemma target_mod d n i :
  0 <= i < n ->
  target d n i = match d with prev => (i - 1) mod n | next => (i + 1) mod n end.
Proof.
  intros H. destruct d; cbn.
  - destruct (Z.gtb_spec i 0).
    + symmetry. apply Z.mod_small. lia.
    + replace (i - 1) with (n - 1 + (-1) * n) by lia.
      rewrite Z_mod_plus_full. symmetry. apply Z.mod_small. lia.
  - destruct (Z.ltb_spec i (n - 1)).
    + symmetry. apply Z.mod_small. lia.
    + replace (i + 1) with (0 + 1 * n) by lia.
      rewrite Z_mod_plus_full. symmetry. apply Z.mod_small. lia.
Qed.

Lemma navigateImage_in_bounds st d i :
  selectedImageIndex st = Some i ->
  0 <= i < JS.length (images st) ->
  exists img,
    JS.array_get (images st) (target d (JS.length (images st)) i) = Some img
    /\ navigateImage st d =
         ([SetSelectedImage (src img);
           SetSelectedImageIndex
             (Some (target d (JS.length (images st)) i))], inl tt).
Proof.
  intros Hi Hb. unfold navigateImage. rewrite Hi.
  destruct (Z.eqb_spec (JS.length (images st)) 0) as [E | _]; [lia |].
  fold (target d (JS.length (images st)) i).
  destruct (array_get_Some (images st) _ (target_bounds d _ _ Hb))
    as [img Himg].
  exists img. now rewrite Himg.
Qed.

Lemma navigateTimes_index d k : forall st i,
  selectedImageIndex st = Some i ->
  0 <= i < JS.length (images st) ->
  exists st',
    navigateTimes k d st = Some st'
    /\ images st' = images st
    /\ selectedImageIndex st' =
         Some (match d with
               | prev => (i - Z.of_nat k) mod JS.length (images st)
               | next => (i + Z.of_nat k) mod JS.length (images st)
               end).
Proof.
  induction k as [| k IH]; intros st i Hi Hb.
  - exists st. cbn [navigateTimes Z.of_nat].
    rewrite Z.sub_0_r, Z.add_0_r, Z.mod_small by lia.
    now destruct d.
  - destruct (navigateImage_in_bounds st d i Hi Hb) as (img & _ & Hnav).
    cbn [navigateTimes]. rewrite Hnav.
    set (st1 := applyCalls st _).
    assert (Himgs : images st1 = images st) by reflexivity.
    assert (Hidx : selectedImageIndex st1
                   = Some (target d (JS.length (images st)) i))
      by reflexivity.
    pose proof (target_bounds d _ _ Hb) as Hb1.
    rewrite <- Himgs in Hidx, Hb1 at 1.
    destruct (IH st1 _ Hidx) as (st' & Hrun & Himgs' & Hidx').
    { now rewrite Himgs in *. }
    exists st'. split; [exact Hrun |]. split; [congruence |].
    rewrite Hidx', Himgs. f_equal.
    rewrite (target_mod d _ _ Hb).
    destruct d.
    + rewrite Zminus_mod_idemp_l. f_equal. lia.
    + rewrite Zplus_mod_idemp_l. f_equal. lia.
Qed.

(** C1. With [n >= 1] images and a selected index [i], [0 <= i < n],
    [navigateImage('prev')] moves the index to [i-1], or to [n-1] from 0;
    [navigateImage('next')] moves it to [i+1], or to 0 from [n-1]; and [n]
    calls of either bring the index back to [i]. *)
Theorem navigateImage_wraps_and_cycles st i :
  selectedImageIndex st = Some i ->
  0 <= i < JS.length (images st) ->
  let n := JS.length (images st) in
  (exists st', navigateTimes 1 prev st = Some st'
     /\ selectedImageIndex st' = Some (if i =? 0 then n - 1 else i - 1))
  /\ (exists st', navigateTimes 1 next st = Some st'
     /\ selectedImageIndex st' = Some (if i =? n - 1 then 0 else i + 1))
  /\ (exists st', navigateTimes (Z.to_nat n) prev st = Some st'
     /\ selectedImageIndex st' = Some i)
  /\ (exists st', navigateTimes (Z.to_nat n) next st = Some st'
     /\ selectedImageIndex st' = Some i).
Proof.
  intros Hi Hb n. repeat split.
  - destruct (navigateImage_in_bounds st prev i Hi Hb) as (img & _ & Hnav).
    cbn [navigateTimes]. rewrite Hnav. eexists. split; [reflexivity |].
    cbn. f_equal. fold n.
    destruct (Z.gtb_spec i 0), (Z.eqb_spec i 0); lia.
  - destruct (navigateImage_in_bounds st next i Hi Hb) as (img & _ & Hnav).
    cbn [navigateTimes]. rewrite Hnav. eexists. split; [reflexivity |].
    cbn. f_equal. fold n.
    destruct (Z.ltb_spec i (n - 1)), (Z.eqb_spec i (n - 1)); lia.
  - destruct (navigateTimes_index prev (Z.to_nat n) st i Hi Hb)
      as (st' & Hrun & _ & Hidx).
    exists st'. split; [exact Hrun |]. rewrite Hidx. f_equal. fold n.
    rewrite Z2Nat.id by lia.
    replace (i - n) with (i + (-1) * n) by lia.
    rewrite Z_mod_plus_full. apply Z.mod_small. lia.
  - destruct (navigateTimes_index next (Z.to_nat n) st i Hi Hb)
      as (st' & Hrun & _ & Hidx).
    exists st'. split; [exact Hrun |]. rewrite Hidx. f_equal. fold n.
    rewrite Z2Nat.id by lia.
    replace (i + n) with (i + 1 * n) by lia.
    rewrite Z_mod_plus_full. apply Z.mod_small. lia.
Qed.

(** *** Element trees *)

Lemma descendants_self e : In e (descendants e).
Proof. destruct e; cbn; auto. Qed.

Lemma descendants_child tag cls h cs c x :
  In c cs -> In x (descendants c) -> In x (descendants (Elem tag cls h cs)).
Proof.
  intros Hc Hx. cbn. right. apply in_flat_map. now exists c.
Qed.

Lemma handlersAlong_incl path : forall e hs,
  handlersAlong path e = Some hs -> incl hs (allHandlers e).
Proof.
  induction path as [| k path IH]; intros e hs H; cbn in H.
  - injection H as <-. destruct e as [| ? ? [h |] ? | |]; cbn;
      intros x Hx; try contradiction.
    destruct Hx as [<- | []]. now left.
  - destruct (nth_error (children e) k) as [c |] eqn:Hk; [| discriminate].
    destruct (handlersAlong path c) as [hs' |] eqn:Hp; [| discriminate].
    injection H as <-. specialize (IH c hs' Hp).
    apply nth_error_In in Hk.
    destruct e as [| tag cls h cs | |]; cbn in Hk; try contradiction.
    intros x Hx. cbn. apply in_or_app. apply in_app_or in Hx.
    destruct Hx as [Hx | Hx].
    + left. destruct h; exact Hx.
    + right. apply in_flat_map. exists c. auto.
Qed.

Lemma mapi_from_nth {A B} (f : A -> Z -> B) (a : list A) : forall k j x,
  nth_error a j = Some x ->
  nth_error (JS.mapi_from f k a) j = Some (f x (k + Z.of_nat j)).
Proof.
  induction a as [| y a IH]; intros k j x H; destruct j; try discriminate.
  - cbn in *. injection H as ->. now rewrite Z.add_0_r.
  - cbn [JS.mapi_from nth_error] in *. rewrite (IH _ _ _ H).
    do 2 f_equal. lia.
Qed.

Lemma mapi_from_In {A B} (f : A -> Z -> B) (a : list A) : forall k y,
  In y (JS.mapi_from f k a) ->
  exists x i, k <= i < k + JS.length a
              /\ JS.array_get a (i - k) = Some x /\ y = f x i.
Proof.
  induction a as [| x a IH]; intros k y H; [contradiction |].
  cbn in H. destruct H as [<- | H].
  - exists x, k. unfold JS.length. cbn [List.length].
    split; [lia |]. split; [| reflexivity].
    now rewrite Z.sub_diag.
  - destruct (IH _ _ H) as (x' & i & Hi & Hget & ->).
    exists x', i. unfold JS.length in *. cbn [List.length].
    split; [lia |]. split; [| reflexivity].
    unfold JS.array_get in *.
    destruct (Z.ltb_spec (i - (k + 1)) 0); [discriminate |].
    destruct (Z.ltb_spec (i - k) 0); [lia |].
    replace (Z.to_nat (i - k)) with (S (Z.to_nat (i - (k + 1)))) by lia.
    exact Hget.
Qed.

(** *** Date labels *)


(** *** The loader *)

Lemma not_ok_iff r : ok r = false <-> ~ (200 <= status r <= 299).
Proof.
  unfold ok. rewrite andb_false_iff, !Z.leb_gt. lia.
Qed.

Lemma fetchImages_resume_not_ok r :
  ok r = false ->
  let message :=
    ("Failed to fetch images: " ++ JS.numberToString (status r) ++ " "
       ++ statusText r)%string in
  fetchImages_resume (Fulfilled r)
    = ([SetError (Some message);
        ConsoleError "Error fetching gallery images:" (JS.VError message);
        SetLoading false], inl tt).
Proof.
  intros H. unfold fetchImages_resume, fetchImages_try. cbn.
  rewrite H. reflexivity.
Qed.

(** C4. When the fetch resolves with a status outside 200-299, the
    component leaves the loading state with [error] set to exactly
    [Failed to fetch images: <status> <statusText>], and the error panel
    shows that message as the text of its paragraph. *)
Theorem non_2xx_sets_and_shows_error w st r :
  component w = Some st ->
  inflight w = true ->
  ~ (200 <= status r <= 299) ->
  let message :=
    ("Failed to fetch images: " ++ JS.numberToString (status r) ++ " "
       ++ statusText r)%string in
  exists w' st',
    step w (Settle (Fulfilled r)) = Next w'
    /\ component w' = Some st'
    /\ loading st' = false
    /\ error st' = Some message
    /\ render st' = Some (errorView message)
    /\ In (Elem "p" "text-gray-700" None [Text message])
          (descendants (errorView message)).
Proof.
  intros Hc Hin Hst message. apply not_ok_iff in Hst.
  cbn [step]. rewrite Hin, (fetchImages_resume_not_ok r Hst), Hc.
  fold message. cbn [option_map].
  eexists. eexists. split; [reflexivity |].
  split; [reflexivity |]. split; [reflexivity |].
  split; [reflexivity |]. split.
  - unfold render. cbn. reflexivity.
  - cbn. tauto.
Qed.

(** C9. A thrown value that is not an [Error] instance (from the fetch or
    from parsing the body) puts the fixed text
    [Failed to load gallery images] in [error]; an [Error] instance puts
    its own message there. *)
Theorem non_Error_uses_fallback_message st :
  (forall v, JS.instanceofError v = false ->
     fetchImages_resume (Rejected v)
       = ([SetError (Some "Failed to load gallery images");
           ConsoleError "Error fetching gallery images:" v;
           SetLoading false], inl tt)
     /\ error (applyCalls st (Comp.calls (fetchImages_resume (Rejected v))))
        = Some "Failed to load gallery images")
  /\ (forall v r, JS.instanceofError v = false ->
        ok r = true -> json r = JsonThrows v ->
        error (applyCalls st
                 (Comp.calls (fetchImages_resume (Fulfilled r))))
        = Some "Failed to load gallery images")
  /\ (forall message,
        error (applyCalls st
                 (Comp.calls (fetchImages_resume
                                (Rejected (JS.VError message)))))
        = Some message).
Proof.
  split; [| split].
  - intros v Hv. unfold fetchImages_resume, fetchImages_try,
      fetchImages_catch. cbn. rewrite Hv. cbn. split; reflexivity.
  - intros v r Hv Hok Hj. unfold fetchImages_resume, fetchImages_try,
      fetchImages_catch, awaitJson. cbn. rewrite Hok, Hj. cbn.
    rewrite Hv. reflexivity.
  - intros message. reflexivity.
Qed.

(** *** The selection stays consistent *)

Lemma forEach_logs {A} (f : A -> Comp.M unit) (a : list A) :
  (forall x, exists line, f x = Comp.emit (ConsoleLog line)) ->
  exists logs,
    Comp.forEach f a = (logs, inl tt) /\ forallb isConsole logs = true.
Proof.
  intros Hf. induction a as [| x a (logs & E & Hlogs)].
  - now exists [].
  - destruct (Hf x) as [line Hx]. exists (ConsoleLog line :: logs).
    cbn [Comp.forEach]. rewrite Hx, E. split; [reflexivity | exact Hlogs].
Qed.

Lemma fetchImages_resume_ok r data :
  ok r = true -> json r = JsonArray data ->
  exists logs,
    fetchImages_resume (Fulfilled r)
      = (logs ++ [SetImages data; SetLoading false], inl tt)
    /\ forallb isConsole logs = true.
Proof.
  intros Hok Hj.
  unfold fetchImages_resume, fetchImages_try, awaitJson. cbn.
  rewrite Hok, Hj. cbn.
  destruct (JS.length data >? 0).
  - match goal with
    | |- context [Comp.forEach ?f ?a] =>
        destruct (forEach_logs f a) as (logs & E & Hlogs);
          [| rewrite E]
    end.
    { intros [img i]. eexists. reflexivity. }
    exists (ConsoleLogData "Fetched gallery images:" data
              :: ConsoleLog "Image dates (should be newest first):" :: logs).
    cbn. rewrite <- app_assoc. split; [reflexivity | exact Hlogs].
  - exists [ConsoleLogData "Fetched gallery images:" data]. cbn.
    split; reflexivity.
Qed.

Lemma console_inert cs :
  forallb isConsole cs = true ->
  forallb (fun c => negb (isSetter c)) cs = true
  /\ existsb isAbort cs = false.
Proof.
  induction cs as [| c cs IH]; [now split |]. cbn.
  intros H. apply andb_true_iff in H as [Hc Hcs].
  destruct (IH Hcs) as [-> ->]. now destruct c.
Qed.

Lemma fetchImages_resume_returns settled :
  exists cs,
    fetchImages_resume settled = (cs, inl tt)
    /\ existsb isAbort cs = false
    /\ forall st,
         selectedImage (applyCalls st cs) = selectedImage st
         /\ selectedImageIndex (applyCalls st cs) = selectedImageIndex st
         /\ loading (applyCalls st cs) = false.
Proof.
  destruct settled as [r | v].
  - destruct (ok r) eqn:Hok.
    + destruct (json r) as [data | v] eqn:Hj.
      * destruct (fetchImages_resume_ok r data Hok Hj) as (logs & E & Hl).
        destruct (console_inert logs Hl) as [Hinert Hab].
        exists (logs ++ [SetImages data; SetLoading false]).
        split; [exact E |]. split.
        { rewrite existsb_app, Hab. reflexivity. }
        intros st.
        rewrite applyCalls_app, (applyCalls_inert logs Hinert). now cbn.
      * unfold fetchImages_resume, fetchImages_try, awaitJson. cbn.
        rewrite Hok, Hj. cbn. eexists. split; [reflexivity |]. now cbn.
    + rewrite (fetchImages_resume_not_ok r Hok).
      eexists. split; [reflexivity |]. now cbn.
  - eexists. split; [reflexivity |]. now cbn.
Qed.

Lemma filter_console cs :
  forallb isConsole cs = true -> filter isSetter cs = [].
Proof.
  induction cs as [| c cs IH]; [reflexivity |]. cbn.
  intros H. apply andb_true_iff in H as [Hc Hcs].
  rewrite (IH Hcs). now destruct c.
Qed.

Lemma fetchImages_resume_outcome settled :
  exists logs,
    forallb isConsole logs = true
    /\ fetchImages_resume settled
       = match outcome settled with
         | inl data => (logs ++ [SetImages data; SetLoading false], inl tt)
         | inr v =>
             ([SetError (Some (surfaced v));
               ConsoleError "Error fetching gallery images:" v;
               SetLoading false], inl tt)
         end.
Proof.
  destruct settled as [r | v]; cbn [outcome].
  - destruct (ok r) eqn:Hok.
    + destruct (json r) as [data | v] eqn:Hj.
      * destruct (fetchImages_resume_ok r data Hok Hj) as (logs & E & Hl).
        now exists logs.
      * exists []. split; [reflexivity |].
        unfold fetchImages_resume, fetchImages_try, awaitJson,
          fetchImages_catch. cbn. rewrite Hok, Hj. cbn. now destruct v.
    + exists []. split; [reflexivity |].
      now rewrite (fetchImages_resume_not_ok r Hok).
  - exists []. split; [reflexivity |].
    unfold fetchImages_resume, fetchImages_catch. cbn. now destruct v.
Qed.

Lemma preserving_ret imgs : preserving imgs (Comp.ret tt).
Proof. exists []. split; [reflexivity |]. now cbn. Qed.

Lemma preserving_bind imgs h k :
  preserving imgs h -> preserving imgs k -> preserving imgs (h ;;; k).
Proof.
  intros (cs & -> & Ha & Hh) (cs' & -> & Ha' & Hk). exists (cs ++ cs').
  split; [reflexivity |]. split; [now rewrite existsb_app, Ha, Ha' |].
  intros st Hi Hw. rewrite applyCalls_app.
  destruct (Hh st Hi Hw) as [Hi' Hw']. now apply Hk.
Qed.

Lemma preserving_inert imgs c :
  isSetter c = false -> isAbort c = false -> preserving imgs (Comp.emit c).
Proof.
  intros Hc Ha. exists [c]. split; [reflexivity |].
  split; [cbn; now rewrite Ha |]. intros st Hi Hw.
  rewrite applyCalls_inert; [now split |]. cbn. now rewrite Hc.
Qed.

Lemma preserving_openImage imgs s i :
  0 <= i < JS.length imgs -> preserving imgs (openImage s i).
Proof.
  intros Hb. eexists. split; [reflexivity |]. split; [reflexivity |].
  intros st Hi Hw. cbn.
  split; [exact Hi |]. split; cbn.
  - intros j [= <-]. now rewrite Hi.
  - discriminate.
Qed.

Lemma preserving_closeImage imgs : preserving imgs closeImage.
Proof.
  eexists. split; [reflexivity |]. split; [reflexivity |].
  intros st Hi Hw. cbn.
  split; [exact Hi |]. split; cbn; discriminate.
Qed.

Lemma preserving_navigateImage st d :
  wellFormed st -> preserving (images st) (navigateImage st d).
Proof.
  intros [Hb Ht]. destruct (selectedImageIndex st) as [i |] eqn:Hi.
  - destruct (navigateImage_in_bounds st d i Hi (Hb i eq_refl))
      as (img & Hget & ->).
    eexists. split; [reflexivity |]. split; [reflexivity |].
    intros st' Hi' Hw'. cbn.
    split; [exact Hi' |]. split; cbn.
    + intros j [= <-]. rewrite Hi'. now apply array_get_bounds in Hget.
    + discriminate.
  - unfold navigateImage. rewrite Hi. apply preserving_ret.
Qed.

Lemma preserving_handleKeyDown st key :
  wellFormed st -> preserving (images st) (handleKeyDown st key).
Proof.
  intros Hw. unfold handleKeyDown.
  destruct (negb (JS.truthy (selectedImage st)));
    [apply preserving_ret |].
  destruct (String.eqb key "Escape"); [apply preserving_closeImage |].
  destruct (String.eqb key "ArrowLeft");
    [now apply preserving_navigateImage |].
  destruct (String.eqb key "ArrowRight");
    [now apply preserving_navigateImage | apply preserving_ret].
Qed.

Lemma preserving_dispatch imgs hs :
  Forall (preserving imgs) hs -> preserving imgs (dispatch hs).
Proof.
  induction 1 as [| h hs Hh _ IH]; cbn [dispatch].
  - apply preserving_ret.
  - apply preserving_bind; [exact Hh |].
    destruct (stopsPropagation h); [apply preserving_ret | exact IH].
Qed.

Lemma modal_wellFormed st :
  wellFormed st ->
  modal st = Some []
  \/ exists selected index img,
       selectedImage st = Some selected
       /\ JS.truthy (Some selected) = true
       /\ selectedImageIndex st = Some index
       /\ JS.array_get (images st) index = Some img
       /\ modal st = Some [lightbox st selected index img].
Proof.
  intros [Hb _]. unfold modal.
  destruct (selectedImage st) as [s |]; [| now left].
  destruct (selectedImageIndex st) as [i |]; [| now left].
  destruct (JS.truthy (Some s)) eqn:Ht; [| now left].
  destruct (array_get_Some (images st) i (Hb i eq_refl)) as [img Hget].
  right. exists s, i, img. now rewrite Hget.
Qed.

Lemma dateLine_handlers tag cls img :
  flat_map allHandlers (dateLine tag cls img) = [].
Proof.
  unfold dateLine.
  destruct (JS.truthy (takenDate img)); [reflexivity |].
  now destruct (JS.truthy (createdTime img)).
Qed.

Lemma tile_handlers img i :
  allHandlers (tile img i)
    = [openImage (JS.or_else (src img) EmptyString) i].
Proof.
  unfold tile. cbn [allHandlers flat_map app].
  rewrite flat_map_app. unfold tileDateLine. rewrite dateLine_handlers.
  now destruct (JS.truthy (JS.read (title img))).
Qed.

Lemma lightbox_handlers st s i img :
  allHandlers (lightbox st s i img)
    = [closeImage;
       Comp.emit StopPropagation;
       Comp.emit StopPropagation ;;; navigateImage st prev;
       Comp.emit StopPropagation ;;; navigateImage st next;
       Comp.emit StopPropagation ;;; closeImage].
Proof.
  unfold lightbox, counter. cbn [allHandlers flat_map app].
  unfold lightboxDateLine. now rewrite dateLine_handlers.
Qed.

Lemma tiles_preserving st h :
  In h (flat_map allHandlers (JS.mapi tile (images st))) ->
  exists img i,
    JS.array_get (images st) i = Some img
    /\ h = openImage (JS.or_else (src img) EmptyString) i.
Proof.
  intros H. apply in_flat_map in H as (y & Hy & Hh).
  apply mapi_from_In in Hy as (img & i & _ & Hget & ->).
  rewrite Z.sub_0_r in Hget. exists img, i. split; [exact Hget |].
  rewrite tile_handlers in Hh. destruct Hh as [<- | []]. reflexivity.
Qed.

Lemma render_handlers_preserving st tree :
  wellFormed st -> render st = Some tree ->
  Forall (preserving (images st)) (allHandlers tree).
Proof.
  intros Hw. unfold render.
  destruct (loading st); [intros [= <-]; constructor |].
  destruct (JS.truthy (error st)).
  { intros [= <-]. cbn. constructor; [| constructor].
    now apply preserving_inert. }
  destruct (JS.length (images st) =? 0); [intros [= <-]; constructor |].
  destruct (modal_wellFormed st Hw)
    as [-> | (s & i & img & Hs & Ht & Hi & Hget & ->)]; intros [= <-].
  - apply Forall_forall. intros h Hh.
    cbn [page grid allHandlers flat_map app] in Hh.
    rewrite !app_nil_r in Hh.
    apply tiles_preserving in Hh as (img & i & Hget & ->).
    apply preserving_openImage. now apply array_get_bounds in Hget.
  - apply Forall_forall. intros h Hh. unfold page, grid in Hh.
    cbn [allHandlers flat_map app] in Hh. fold (lightbox st s i img) in Hh.
    rewrite lightbox_handlers, !app_nil_r in Hh.
    apply in_app_or in Hh as [Hh | Hh].
    + apply tiles_preserving in Hh as (img' & j & Hget' & ->).
      apply preserving_openImage. now apply array_get_bounds in Hget'.
    + destruct Hh as [<- | [<- | [<- | [<- | [<- | []]]]]].
      * apply preserving_closeImage.
      * now apply preserving_inert.
      * apply preserving_bind;
          [now apply preserving_inert | now apply preserving_navigateImage].
      * apply preserving_bind;
          [now apply preserving_inert | now apply preserving_navigateImage].
      * apply preserving_bind;
          [now apply preserving_inert | apply preserving_closeImage].
Qed.

(** *** Every reachable world satisfies the invariant *)

Lemma sameString_refl a : JS.sameString a a = true.
Proof. destruct a as [x |]; [apply String.eqb_refl | reflexivity]. Qed.

Lemma sameNumber_refl a : JS.sameNumber a a = true.
Proof. destruct a as [x |]; [apply Z.eqb_refl | reflexivity]. Qed.

Lemma rerunEffects_unchanged st cs :
  selectedImage (applyCalls st cs) = selectedImage st ->
  selectedImageIndex (applyCalls st cs) = selectedImageIndex st ->
  existsb isSetImages cs = false ->
  rerunEffects st cs = [].
Proof.
  intros Hs Hi Hc. unfold rerunEffects, keydownDepsChanged.
  now rewrite Hs, Hi, Hc, sameString_refl, sameNumber_refl.
Qed.

Lemma rerunEffects_no_abort st cs :
  existsb isAbort (rerunEffects st cs) = false.
Proof.
  unfold rerunEffects. now destruct (keydownDepsChanged st cs).
Qed.

Lemma invariant_mount before :
  existsb isAbort before = false -> invariant (mount before).
Proof.
  intros Hb. unfold invariant. cbn [mount trace component]. split.
  - rewrite existsb_app, Hb. reflexivity.
  - split; [| reflexivity]. split; cbn; discriminate.
Qed.

Lemma render_wellFormed st : wellFormed st -> render st <> None.
Proof.
  intros Hw. unfold render.
  destruct (loading st); [discriminate |].
  destruct (JS.truthy (error st)); [discriminate |].
  destruct (JS.length (images st) =? 0); [discriminate |].
  destruct (modal_wellFormed st Hw) as [-> | (s & i & img & H)];
    [discriminate |].
  destruct H as (_ & _ & _ & _ & ->). discriminate.
Qed.

(** The handler an event runs, when the mounted component's state is
    [st]; [None] when the event cannot happen. *)
Lemma event_handler_preserving st ev h :
  wellFormed st ->
  match ev with
  | KeyDown key => Some (handleKeyDown st key)
  | Click target =>
      match render st with
      | Some tree =>
          option_map (fun hs => dispatch (rev hs))
                     (handlersAlong target tree)
      | None => None
      end
  | _ => None
  end = Some h ->
  preserving (images st) h.
Proof.
  intros Hw. destruct ev as [s | key | target |]; try discriminate.
  - intros [= <-]. now apply preserving_handleKeyDown.
  - destruct (render st) as [tree |] eqn:Hr; [| discriminate].
    destruct (handlersAlong target tree) as [hs |] eqn:Hp; [| discriminate].
    intros [= <-]. apply preserving_dispatch.
    apply Forall_forall. intros h Hh. apply in_rev in Hh.
    pose proof (render_handlers_preserving st tree Hw Hr) as Hall.
    rewrite Forall_forall in Hall. apply Hall.
    exact (handlersAlong_incl _ _ _ Hp h Hh).
Qed.

Lemma initial_handler_idle ev h :
  match ev with
  | KeyDown key => Some (handleKeyDown initialState key)
  | Click target =>
      match render initialState with
      | Some tree =>
          option_map (fun hs => dispatch (rev hs))
                     (handlersAlong target tree)
      | None => None
      end
  | _ => None
  end = Some h ->
  h = Comp.ret tt.
Proof.
  destruct ev as [s | key | target |]; try discriminate.
  - now intros [= <-].
  - cbn [render initialState loading].
    destruct (handlersAlong target loadingView) as [hs |] eqn:Hp;
      [| discriminate].
    intros [= <-]. apply handlersAlong_incl in Hp.
    destruct hs as [| h hs]; [reflexivity |].
    destruct (Hp h (or_introl eq_refl)).
Qed.

Lemma run_preserving w st h :
  component w = Some st -> invariant w ->
  (inflight w = true -> h = Comp.ret tt) ->
  preserving (images st) h ->
  exists w', run w st h = Next w' /\ invariant w'.
Proof.
  intros Hc [Htr Hinv] Hidle (cs & -> & Ha & Hp). unfold run.
  assert (Htr' : existsb isAbort (trace w ++ cs) = false)
    by now rewrite existsb_app, Htr, Ha.
  destruct (reloads cs); [eexists; split;
                          [reflexivity | now apply invariant_mount] |].
  eexists. split; [reflexivity |].
  unfold invariant, update. rewrite Hc in Hinv. destruct Hinv as [Hw Hinit].
  cbn [component inflight trace].
  split; [now rewrite !existsb_app, Htr, Ha, rerunEffects_no_abort |].
  split; [now apply Hp |].
  intros Hin. specialize (Hidle Hin). injection Hidle as ->.
  now apply Hinit.
Qed.

Lemma step_invariant w ev :
  invariant w ->
  step w ev = Impossible
  \/ exists w', step w ev = Next w' /\ invariant w'.
Proof.
  intros Hinv.
  destruct ev as [s | key | target |].
  - cbn [step]. destruct (inflight w) eqn:Hin; [right | now left].
    destruct (fetchImages_resume_returns s) as (cs & -> & Ha & Hcs).
    destruct Hinv as [Htr Hinv].
    destruct (component w) as [st |]; eexists;
      (split; [reflexivity |]); unfold invariant;
      cbn [component inflight trace];
      (split;
       [now rewrite !existsb_app, Htr, Ha, ?rerunEffects_no_abort |]);
      [| exact I].
    destruct Hinv as [_ Hinit]. rewrite (Hinit Hin).
    destruct (Hcs initialState) as (Hs & Hi & _).
    split; [| discriminate].
    split; [rewrite Hi | rewrite Hs]; cbn; discriminate.
  - cbn [step]. destruct (component w) as [st |] eqn:Hc; [right | now left].
    assert (Hw : wellFormed st)
      by (unfold invariant in Hinv; rewrite Hc in Hinv; tauto).
    apply (run_preserving w st _ Hc Hinv).
    + intros Hin. unfold invariant in Hinv. rewrite Hc in Hinv.
      destruct Hinv as (_ & _ & Hinit). rewrite (Hinit Hin).
      now apply (initial_handler_idle (KeyDown key)).
    + now apply (event_handler_preserving st (KeyDown key)).
  - cbn [step]. destruct (component w) as [st |] eqn:Hc; [| now left].
    assert (Hw : wellFormed st)
      by (unfold invariant in Hinv; rewrite Hc in Hinv; tauto).
    destruct (render st) as [tree |] eqn:Hr; [| now left].
    destruct (handlersAlong target tree) as [hs |] eqn:Hp; [| now left].
    right. apply (run_preserving w st _ Hc Hinv).
    + intros Hin. unfold invariant in Hinv. rewrite Hc in Hinv.
      destruct Hinv as (_ & _ & Hinit). rewrite (Hinit Hin) in Hr.
      apply (initial_handler_idle (Click target)). now rewrite Hr, Hp.
    + apply (event_handler_preserving st (Click target) _ Hw).
      now rewrite Hr, Hp.
  - cbn [step]. destruct (component w); [right | now left].
    eexists. split; [reflexivity |]. destruct Hinv as [Htr _].
    split; [| exact I]. cbn [trace]. now rewrite existsb_app, Htr.
Qed.

Lemma reachable_invariant w : reachable w -> invariant w.
Proof.
  induction 1 as [| w ev w' _ IH Hstep]; [now apply invariant_mount |].
  destruct (step_invariant w ev IH) as [E | (w2 & E & Hinv)];
    rewrite E in Hstep; [discriminate |].
  now injection Hstep as <-.
Qed.

Lemma reachable_steps evs : forall w w',
  reachable w -> steps w evs = Some w' -> reachable w'.
Proof.
  induction evs as [| ev evs IH]; intros w w' Hr H; cbn in H.
  - now injection H as <-.
  - destruct (step w ev) as [w1 | |] eqn:E; try discriminate.
    apply (IH w1); [| exact H]. exact (reachable_step w ev w1 Hr E).
Qed.

Lemma afterEvents_reachable evs : reachable (afterEvents evs).
Proof.
  unfold afterEvents. destruct (steps (mount []) evs) as [w |] eqn:E.
  - exact (reachable_steps evs _ _ reachable_mount E).
  - exact reachable_mount.
Qed.

Lemma reachable_wellFormed w st :
  reachable w -> component w = Some st -> wellFormed st.
Proof.
  intros Hr Hc. apply reachable_invariant in Hr.
  unfold invariant in Hr. rewrite Hc in Hr. tauto.
Qed.

(** C5. In every reachable world a selected index [i] satisfies
    [0 <= i < images.length]; no event raises and no render throws; the
    only handlers that select an index are those of the tiles, each with
    the index of its own record; [navigateImage] on a non-empty array
    returns normally with an index that is again in bounds; and with an
    empty array nothing is selected and the only click handler that can
    be on screen is the reload button of the error panel. *)
Theorem lightbox_index_in_bounds :
  (forall w st i, reachable w -> component w = Some st ->
     selectedImageIndex st = Some i -> 0 <= i < JS.length (images st))
  /\ (forall w ev v, reachable w -> step w ev <> Uncaught v)
  /\ (forall w st, reachable w -> component w = Some st ->
        render st <> None)
  /\ (forall st h, In h (allHandlers (grid st)) ->
        exists img i, JS.array_get (images st) i = Some img
          /\ h = openImage (JS.or_else (src img) EmptyString) i)
  /\ (forall st d i, selectedImageIndex st = Some i ->
        0 <= i < JS.length (images st) ->
        exists cs j, navigateImage st d = (cs, inl tt)
          /\ images (applyCalls st cs) = images st
          /\ selectedImageIndex (applyCalls st cs) = Some j
          /\ 0 <= j < JS.length (images st))
  /\ (forall w st, reachable w -> component w = Some st ->
        images st = [] ->
        selectedImageIndex st = None
        /\ lightboxOpen st = false
        /\ forall tree h, render st = Some tree ->
             In h (allHandlers tree) -> h = Comp.emit LocationReload).
Proof.
  split; [| split; [| split; [| split; [| split]]]].
  - intros w st i Hr Hc Hi.
    destruct (reachable_wellFormed w st Hr Hc) as [Hb _]. now apply Hb.
  - intros w ev v Hr E.
    destruct (step_invariant w ev (reachable_invariant w Hr))
      as [E' | (w' & E' & _)]; rewrite E' in E; discriminate.
  - intros w st Hr Hc. apply render_wellFormed.
    exact (reachable_wellFormed w st Hr Hc).
  - intros st h Hh. unfold grid in Hh.
    cbn [allHandlers app] in Hh. now apply tiles_preserving.
  - intros st d i Hi Hb.
    destruct (navigateImage_in_bounds st d i Hi Hb) as (img & Hget & ->).
    eexists. eexists. split; [reflexivity |]. cbn.
    split; [reflexivity |]. split; [reflexivity |].
    now apply target_bounds.
  - intros w st Hr Hc Himgs.
    destruct (reachable_wellFormed w st Hr Hc) as [Hb Ht].
    assert (Hnone : selectedImageIndex st = None).
    { destruct (selectedImageIndex st) as [i |]; [| reflexivity].
      specialize (Hb i eq_refl). rewrite Himgs in Hb. cbn in Hb. lia. }
    split; [exact Hnone |]. split.
    + unfold lightboxOpen. rewrite Hnone. apply andb_false_r.
    + intros tree h Hrender Hh. unfold render in Hrender.
      rewrite Himgs in Hrender. cbn [JS.length List.length Z.of_nat] in Hrender.
      destruct (loading st); [| destruct (JS.truthy (error st))];
        cbn in Hrender; injection Hrender as <-; cbn in Hh;
        intuition congruence.
Qed.

(** *** Keyboard *)

Lemma run_ret w st :
  run w st (Comp.ret tt)
    = Next {| component := Some st;
              inflight := inflight w;
              trace := trace w |}.
Proof.
  unfold run, Comp.ret, update. cbn [reloads existsb applyCalls fold_left].
  rewrite (rerunEffects_unchanged st []) by reflexivity.
  now rewrite !app_nil_r.
Qed.

(** C6. With the lightbox open, [Escape] runs [closeImage], [ArrowLeft]
    runs [navigateImage('prev')], [ArrowRight] runs
    [navigateImage('next')] and any other key does nothing; with the
    lightbox closed, in any reachable world, a key press does nothing and
    leaves the state as it was. *)
Theorem keyboard_router :
  (forall st, lightboxOpen st = true ->
     handleKeyDown st "Escape" = closeImage
     /\ handleKeyDown st "ArrowLeft" = navigateImage st prev
     /\ handleKeyDown st "ArrowRight" = navigateImage st next
     /\ forall key, key <> "Escape" -> key <> "ArrowLeft" ->
          key <> "ArrowRight" -> handleKeyDown st key = Comp.ret tt)
  /\ (forall w st key, reachable w -> component w = Some st ->
        lightboxOpen st = false ->
        handleKeyDown st key = Comp.ret tt
        /\ exists w', step w (KeyDown key) = Next w'
             /\ component w' = Some st).
Proof.
  split.
  - intros st Ho. unfold lightboxOpen in Ho.
    apply andb_true_iff in Ho as [Ht _].
    unfold handleKeyDown. rewrite Ht. cbn.
    repeat split. intros key H1 H2 H3.
    apply String.eqb_neq in H1, H2, H3. now rewrite H1, H2, H3.
  - intros w st key Hr Hc Ho.
    destruct (reachable_wellFormed w st Hr Hc) as [_ Ht].
    assert (Hf : JS.truthy (selectedImage st) = false).
    { unfold lightboxOpen in Ho.
      destruct (JS.truthy (selectedImage st)); [| reflexivity].
      specialize (Ht eq_refl).
      destruct (selectedImageIndex st); [discriminate | contradiction]. }
    assert (Hk : handleKeyDown st key = Comp.ret tt)
      by (unfold handleKeyDown; now rewrite Hf).
    split; [exact Hk |].
    cbn [step]. rewrite Hc, Hk, run_ret. eexists. split; reflexivity.
Qed.

(** *** The empty gallery *)

(** C7. When loading has finished without an error and the array is empty,
    the component renders the centred panel with the heading
    [No Images Found] and its fixed body text, and no tile; this is the
    state reached when the endpoint answers with an empty array. *)
Theorem empty_gallery_shows_empty_panel :
  (forall st, loading st = false -> error st = None -> images st = [] ->
     render st = Some emptyView)
  /\ shows "No Images Found" emptyView = true
  /\ shows "There are no images available in the gallery. Please check your Google Drive folder."
           emptyView = true
  /\ existsb isTile (descendants emptyView) = false
  /\ allHandlers emptyView = []
  /\ (forall w st r, component w = Some st -> inflight w = true ->
        error st = None -> ok r = true -> json r = JsonArray [] ->
        exists w' st',
          step w (Settle (Fulfilled r)) = Next w'
          /\ component w' = Some st'
          /\ images st' = []
          /\ render st' = Some emptyView).
Proof.
  split; [| split; [| split; [| split; [| split]]]];
    try reflexivity.
  - intros st Hl He Hi. unfold render. now rewrite Hl, He, Hi.
  - intros w st r Hc Hin He Hok Hj.
    destruct (fetchImages_resume_ok r [] Hok Hj) as (logs & E & Hlogs).
    destruct (console_inert logs Hlogs) as [Hinert _].
    cbn [step]. rewrite Hin, E, Hc. cbn [option_map].
    eexists. eexists. split; [reflexivity |]. split; [reflexivity |].
    rewrite applyCalls_app, (applyCalls_inert logs Hinert).
    split; [reflexivity |]. unfold render. cbn. now rewrite He.
Qed.

(** *** Opening the lightbox *)

Lemma handlersAlong_tile st m i img :
  JS.array_get (images st) i = Some img ->
  handlersAlong [0%nat; Z.to_nat i]
                (page [grid st; Elem "AnimatePresence" EmptyString None m])
    = Some [openImage (JS.or_else (src img) EmptyString) i].
Proof.
  intros Hget. pose proof (array_get_bounds _ _ _ Hget) as Hb.
  apply array_get_nth in Hget.
  cbn [page grid handlersAlong children nth_error onClick app].
  unfold JS.mapi. rewrite (mapi_from_nth tile _ 0 _ _ Hget).
  rewrite Z.add_0_l, Z2Nat.id by lia. reflexivity.
Qed.

Lemma render_grid st :
  loading st = false -> JS.truthy (error st) = false ->
  images st <> [] ->
  render st =
    match modal st with
    | Some m =>
        Some (page [grid st; Elem "AnimatePresence" EmptyString None m])
    | None => None
    end.
Proof.
  intros Hl He Hi. unfold render. rewrite Hl, He.
  destruct (images st); [contradiction | reflexivity].
Qed.

Lemma click_tile w st i img :
  wellFormed st -> component w = Some st ->
  loading st = false -> JS.truthy (error st) = false ->
  JS.array_get (images st) i = Some img ->
  step w (Click [0%nat; Z.to_nat i])
    = Next {| component :=
                Some (mkState (images st)
                        (Some (JS.or_else (src img) EmptyString))
                        (Some i) false (error st));
              inflight := inflight w;
              trace := trace w
                       ++ Comp.calls
                            (openImage (JS.or_else (src img) EmptyString)
                                       i)
                       ++ rerunEffects st
                            (Comp.calls
                               (openImage
                                  (JS.or_else (src img) EmptyString) i)) |}.
Proof.
  intros Hw Hc Hl He Hget.
  assert (Hne : images st <> []).
  { intros E. rewrite E in Hget. apply array_get_bounds in Hget.
    cbn in Hget. lia. }
  cbn [step]. rewrite Hc, (render_grid st Hl He Hne).
  destruct (modal_wellFormed st Hw) as [-> | (s & j & x & H)].
  - rewrite (handlersAlong_tile st _ i img Hget).
    unfold run, update. cbn [dispatch rev app openImage Comp.bind Comp.emit
      Comp.ret stopsPropagation Comp.calls fst existsb reloads orb
      applyCalls fold_left images selectedImage selectedImageIndex loading
      error].
    unfold applyCall. cbn [images selectedImage selectedImageIndex loading
      error]. now rewrite Hl.
  - destruct H as (_ & _ & _ & _ & ->).
    rewrite (handlersAlong_tile st _ i img Hget).
    unfold run, update. cbn [dispatch rev app openImage Comp.bind Comp.emit
      Comp.ret stopsPropagation Comp.calls fst existsb reloads orb
      applyCalls fold_left images selectedImage selectedImageIndex loading
      error].
    unfold applyCall. cbn [images selectedImage selectedImageIndex loading
      error]. now rewrite Hl.
Qed.

Lemma counter_shown st s i img m :
  shows (counterText i (JS.length (images st)))
        (page [grid st;
               Elem "AnimatePresence" m None [lightbox st s i img]])
    = true.
Proof.
  unfold shows. apply existsb_exists. exists (counter st i). split.
  - unfold page.
    eapply descendants_child; [right; now left |].
    eapply descendants_child; [now left |]. unfold lightbox.
    eapply descendants_child; [now left |].
    eapply descendants_child; [do 4 right; now left |].
    eapply descendants_child; [now left | apply descendants_self].
  - apply String.eqb_eq. reflexivity.
Qed.

(** C8. Clicking the tile at position [i] of the loaded array
    selects index [i]; when that record's [src] is a non-empty string the
    lightbox opens on it, and whenever the lightbox is open at index [i]
    the tree shows the counter text [i+1 / n], [n] being the number of
    images. *)
Theorem tile_click_opens_lightbox_with_counter :
  (forall w st i img, reachable w -> component w = Some st ->
     loading st = false -> JS.truthy (error st) = false ->
     JS.array_get (images st) i = Some img ->
     exists w' st',
       step w (Click [0%nat; Z.to_nat i]) = Next w'
       /\ component w' = Some st'
       /\ images st' = images st
       /\ selectedImageIndex st' = Some i
       /\ (JS.truthy (src img) = true ->
           selectedImage st' = src img /\ lightboxOpen st' = true))
  /\ (forall w st i, reachable w -> component w = Some st ->
        loading st = false -> JS.truthy (error st) = false ->
        lightboxOpen st = true -> selectedImageIndex st = Some i ->
        exists tree,
          render st = Some tree
          /\ shows (counterText i (JS.length (images st))) tree = true).
Proof.
  split.
  - intros w st i img Hr Hc Hl He Hget.
    pose proof (reachable_wellFormed w st Hr Hc) as Hw.
    eexists. eexists.
    split; [exact (click_tile w st i img Hw Hc Hl He Hget) |].
    cbn [component images selectedImageIndex selectedImage].
    repeat split. 
    + destruct (src img) as [s |]; [| discriminate].
      cbn in *. now destruct (String.eqb s EmptyString).
    + unfold lightboxOpen. cbn [selectedImage selectedImageIndex].
      destruct (src img) as [s |]; [| discriminate].
      cbn in *. destruct (String.eqb s EmptyString) eqn:E;
        [discriminate |]. now rewrite E.
  - intros w st i Hr Hc Hl He Ho Hi.
    pose proof (reachable_wellFormed w st Hr Hc) as Hw.
    assert (Hne : images st <> []).
    { intros E. destruct Hw as [Hb _]. specialize (Hb i Hi).
      rewrite E in Hb. cbn in Hb. lia. }
    rewrite (render_grid st Hl He Hne).
    unfold lightboxOpen in Ho. apply andb_true_iff in Ho as [Ht _].
    destruct (modal_wellFormed st Hw) as [E | (s & j & x & H)].
    + unfold modal in E. rewrite Hi in E.
      destruct (selectedImage st) as [s |]; [| discriminate].
      rewrite Ht in E.
      destruct (JS.array_get (images st) i); discriminate.
    + destruct H as (_ & _ & Hj & _ & ->).
      assert (j = i) by congruence. subst j.
      eexists. split; [reflexivity |]. apply counter_shown.
Qed.

(** C10. Clicking a tile whose record has no [src], or an empty one,
    stores the empty string and the tile's index; the modal is then not
    rendered, and no key press has any effect. *)
Theorem tile_without_src_keeps_lightbox_closed w st i img :
  reachable w -> component w = Some st ->
  loading st = false -> JS.truthy (error st) = false ->
  JS.array_get (images st) i = Some img ->
  JS.truthy (src img) = false ->
  exists w' st',
    step w (Click [0%nat; Z.to_nat i]) = Next w'
    /\ component w' = Some st'
    /\ selectedImageIndex st' = Some i
    /\ selectedImage st' = Some EmptyString
    /\ lightboxOpen st' = false
    /\ render st' =
         Some (page [grid st';
                     Elem "AnimatePresence" EmptyString None []])
    /\ forall key,
         handleKeyDown st' key = Comp.ret tt
         /\ exists w'', step w' (KeyDown key) = Next w''
              /\ component w'' = Some st'.
Proof.
  intros Hr Hc Hl He Hget Hsrc.
  pose proof (reachable_wellFormed w st Hr Hc) as Hw.
  assert (Hor : JS.or_else (src img) EmptyString = EmptyString).
  { destruct (src img) as [s |]; [| reflexivity]. cbn in *.
    now destruct (String.eqb s EmptyString). }
  assert (Hne : images st <> []).
  { intros E. rewrite E in Hget. apply array_get_bounds in Hget.
    cbn in Hget. lia. }
  eexists. eexists.
  split; [exact (click_tile w st i img Hw Hc Hl He Hget) |].
  rewrite Hor. split; [reflexivity |]. split; [reflexivity |].
  split; [reflexivity |]. split; [reflexivity |]. split.
  - rewrite render_grid; [reflexivity | reflexivity | exact He | exact Hne].
  - intros key. split; [reflexivity |].
    eexists. split; reflexivity.
Qed.

(** *** Unmounting while the request is in flight *)

Lemma rerunEffects_resume settled st cs :
  fetchImages_resume settled = (cs, inl tt) ->
  rerunEffects st cs
  = match outcome settled with
    | inl _ => [RemoveKeydownListener; AddKeydownListener]
    | inr _ => []
    end.
Proof.
  intros E. destruct (fetchImages_resume_outcome settled) as (logs & Hl & E').
  rewrite E in E'. destruct (outcome settled) as [data | v];
    injection E' as ->.
  - unfold rerunEffects, keydownDepsChanged.
    rewrite existsb_app. cbn [existsb isSetImages].
    now rewrite !orb_true_r.
  - now apply rerunEffects_unchanged.
Qed.

(** C2. No reachable world's trace contains a request to abort the fetch.
    Unmounting only removes the keydown listener and leaves the request in
    flight.  When it settles afterwards, no component state is updated,
    there being none left; but the result is not discarded by the
    component's code: the continuation issues the very calls it issues
    while mounted, ending with [setLoading(false)].  (Mounted, these calls
    are followed by the keydown effect running again when the array was
    set.) *)
Theorem unmount_leaves_fetch_running :
  (forall w, reachable w -> existsb isAbort (trace w) = false)
  /\ (forall w st settled, component w = Some st -> inflight w = true ->
        exists cs w1 w2 w',
          fetchImages_resume settled = (cs, inl tt)
          /\ step w Unmount = Next w1
          /\ trace w1 = trace w ++ [RemoveKeydownListener]
          /\ inflight w1 = true
          /\ step w1 (Settle settled) = Next w2
          /\ component w2 = None
          /\ trace w2 = trace w1 ++ cs
          /\ step w (Settle settled) = Next w'
          /\ trace w'
             = trace w ++ cs
                 ++ match outcome settled with
                    | inl _ => [RemoveKeydownListener; AddKeydownListener]
                    | inr _ => []
                    end
          /\ exists cs', cs = cs' ++ [SetLoading false]).
Proof.
  split.
  - intros w Hr. now destruct (reachable_invariant w Hr).
  - intros w st s Hc Hin.
    destruct (fetchImages_resume_outcome s) as (logs & _ & E).
    assert (Hcs : exists cs cs',
               fetchImages_resume s = (cs, inl tt)
               /\ cs = cs' ++ [SetLoading false]).
    { destruct (outcome s) as [data | v].
      - exists (logs ++ [SetImages data; SetLoading false]),
          (logs ++ [SetImages data]).
        split; [exact E |]. now rewrite <- app_assoc.
      - eexists. eexists. split; [exact E |].
        now instantiate (1 := [_; _]). }
    clear E. destruct Hcs as (cs & cs' & E & Hlast).
    exists cs. eexists. eexists. eexists.
    split; [exact E |]. cbn [step]. rewrite Hc, Hin, E.
    split; [reflexivity |]. split; [reflexivity |].
    split; [reflexivity |]. cbn [inflight component trace].
    split; [reflexivity |]. split; [reflexivity |].
    split; [reflexivity |]. split; [reflexivity |].
    split; [| now exists cs'].
    cbn [trace]. now rewrite (rerunEffects_resume s st cs E).
Qed.

(** *** What the handlers are and what they touch *)

Lemma render_handlers_attached st tree h :
  render st = Some tree -> In h (allHandlers tree) -> attached st h.
Proof.
  unfold render.
  destruct (loading st); [intros [= <-] [] |].
  destruct (JS.truthy (error st)).
  { intros [= <-] Hh. cbn in Hh. destruct Hh as [<- | []]. constructor. }
  destruct (JS.length (images st) =? 0); [intros [= <-] [] |].
  unfold modal.
  destruct (selectedImage st) as [s |];
    [destruct (selectedImageIndex st) as [i |];
     [destruct (JS.truthy (Some s));
      [destruct (JS.array_get (images st) i) as [img |];
       [| discriminate] |] |] |].
  1: { intros [= <-] Hh. unfold page, grid in Hh.
       cbn [allHandlers flat_map app] in Hh.
       fold (lightbox st s i img) in Hh.
       rewrite lightbox_handlers, !app_nil_r in Hh.
       apply in_app_or in Hh as [Hh | Hh].
       - apply tiles_preserving in Hh as (x & j & Hget & ->).
         now constructor.
       - destruct Hh as [<- | [<- | [<- | [<- | [<- | []]]]]];
           constructor. }
  all: intros [= <-] Hh; cbn [page grid allHandlers flat_map app] in Hh;
    rewrite !app_nil_r in Hh;
    apply tiles_preserving in Hh as (x & j & Hget & ->); now constructor.
Qed.

Lemma lightboxOnly_ret imgs : lightboxOnly imgs (Comp.ret tt).
Proof.
  exists []. split; [reflexivity |]. intros st Hi. cbn. tauto.
Qed.

Lemma lightboxOnly_inert imgs c :
  isSetter c = false -> lightboxOnly imgs (Comp.emit c).
Proof.
  intros Hc. exists [c]. split; [reflexivity |]. intros st Hi.
  rewrite applyCalls_inert; [tauto |]. cbn. now rewrite Hc.
Qed.

Lemma lightboxOnly_bind imgs h k :
  lightboxOnly imgs h -> lightboxOnly imgs k -> lightboxOnly imgs (h ;;; k).
Proof.
  intros (cs & -> & Hh) (cs' & -> & Hk). exists (cs ++ cs').
  split; [reflexivity |]. intros st Hi. rewrite applyCalls_app.
  destruct (Hh st Hi) as (Hi1 & Hl1 & He1 & Hs1).
  destruct (Hk _ Hi1) as (Hi2 & Hl2 & He2 & Hs2).
  split; [exact Hi2 |]. split; [congruence |]. split; [congruence |].
  destruct Hs2 as [Hs2 | Hs2]; [| now right].
  rewrite Hs2. exact Hs1.
Qed.

Lemma lightboxOnly_closeImage imgs : lightboxOnly imgs closeImage.
Proof.
  eexists. split; [reflexivity |]. intros st Hi. cbn.
  repeat split; try assumption. right. now left.
Qed.

Lemma lightboxOnly_openImage imgs img i :
  JS.array_get imgs i = Some img ->
  lightboxOnly imgs (openImage (JS.or_else (src img) EmptyString) i).
Proof.
  intros Hget. eexists. split; [reflexivity |]. intros st Hi. cbn.
  repeat split; try assumption. right. right. exists i, img. cbn. tauto.
Qed.

Lemma lightboxOnly_navigateImage st d :
  wellFormed st -> lightboxOnly (images st) (navigateImage st d).
Proof.
  intros [Hb _]. destruct (selectedImageIndex st) as [i |] eqn:Hi.
  - destruct (navigateImage_in_bounds st d i Hi (Hb i eq_refl))
      as (img & Hget & ->).
    eexists. split; [reflexivity |]. intros st' Hi'. cbn.
    repeat split; try assumption. right. right.
    exists (target d (JS.length (images st)) i), img. cbn. tauto.
  - unfold navigateImage. rewrite Hi. apply lightboxOnly_ret.
Qed.

Lemma lightboxOnly_attached st h :
  wellFormed st -> attached st h -> lightboxOnly (images st) h.
Proof.
  intros Hw [| img i Hget | | | d |].
  - now apply lightboxOnly_inert.
  - now apply lightboxOnly_openImage.
  - apply lightboxOnly_closeImage.
  - now apply lightboxOnly_inert.
  - apply lightboxOnly_bind;
      [now apply lightboxOnly_inert | now apply lightboxOnly_navigateImage].
  - apply lightboxOnly_bind;
      [now apply lightboxOnly_inert | apply lightboxOnly_closeImage].
Qed.

Lemma lightboxOnly_dispatch imgs hs :
  Forall (lightboxOnly imgs) hs -> lightboxOnly imgs (dispatch hs).
Proof.
  induction 1 as [| h hs Hh _ IH]; cbn [dispatch].
  - apply lightboxOnly_ret.
  - apply lightboxOnly_bind; [exact Hh |].
    destruct (stopsPropagation h); [apply lightboxOnly_ret | exact IH].
Qed.

Lemma lightboxOnly_handleKeyDown st key :
  wellFormed st -> lightboxOnly (images st) (handleKeyDown st key).
Proof.
  intros Hw. unfold handleKeyDown.
  destruct (negb (JS.truthy (selectedImage st)));
    [apply lightboxOnly_ret |].
  destruct (String.eqb key "Escape"); [apply lightboxOnly_closeImage |].
  destruct (String.eqb key "ArrowLeft");
    [now apply lightboxOnly_navigateImage |].
  destruct (String.eqb key "ArrowRight");
    [now apply lightboxOnly_navigateImage | apply lightboxOnly_ret].
Qed.

Lemma lightboxOnly_click st tree target hs :
  wellFormed st -> render st = Some tree ->
  handlersAlong target tree = Some hs ->
  lightboxOnly (images st) (dispatch (rev hs)).
Proof.
  intros Hw Hr Hp. apply lightboxOnly_dispatch, Forall_forall.
  intros h Hh. apply in_rev in Hh.
  apply (lightboxOnly_attached st h Hw).
  apply (render_handlers_attached st tree h Hr).
  exact (handlersAlong_incl _ _ _ Hp h Hh).
Qed.

(** *** The loader, whatever the outcome *)

Lemma fetchImages_resume_state settled st :
  exists cs,
    fetchImages_resume settled = (cs, inl tt)
    /\ applyCalls st cs
       = match outcome settled with
         | inl data =>
             mkState data (selectedImage st) (selectedImageIndex st)
                     false (error st)
         | inr v =>
             mkState (images st) (selectedImage st) (selectedImageIndex st)
                     false (Some (surfaced v))
         end.
Proof.
  destruct (fetchImages_resume_outcome settled) as (logs & Hl & E).
  destruct (outcome settled) as [data | v].
  - eexists. split; [exact E |].
    destruct (console_inert logs Hl) as [Hinert _].
    now rewrite applyCalls_app, (applyCalls_inert logs Hinert).
  - eexists. split; [exact E | reflexivity].
Qed.

(** X1. However the request settles, the continuation of [fetchImages]
    returns normally and makes exactly two state updates: [setImages] with
    the parsed array on success, or [setError] with the surfaced message on
    any failure, and then [setLoading(false)].  It never sets both the
    array and the error, and it leaves the selection alone. *)
Theorem fetch_settles_with_two_updates settled st :
  exists cs,
    fetchImages_resume settled = (cs, inl tt)
    /\ filter isSetter cs
       = match outcome settled with
         | inl data => [SetImages data; SetLoading false]
         | inr v => [SetError (Some (surfaced v)); SetLoading false]
         end
    /\ applyCalls st cs
       = match outcome settled with
         | inl data =>
             mkState data (selectedImage st) (selectedImageIndex st)
                     false (error st)
         | inr v =>
             mkState (images st) (selectedImage st) (selectedImageIndex st)
                     false (Some (surfaced v))
         end.
Proof.
  destruct (fetchImages_resume_outcome settled) as (logs & Hl & E).
  destruct (outcome settled) as [data | v].
  - eexists. split; [exact E |]. split.
    + now rewrite filter_app, (filter_console logs Hl).
    + destruct (console_inert logs Hl) as [Hinert _].
      now rewrite applyCalls_app, (applyCalls_inert logs Hinert).
  - eexists. split; [exact E |]. split; reflexivity.
Qed.

(** *** After the request has settled *)

Lemma settledInvariant_mount before : settledInvariant (mount before).
Proof.
  unfold settledInvariant. cbn. split; [discriminate | now left].
Qed.

Lemma run_settled w st h w' :
  component w = Some st -> settledInvariant w ->
  lightboxOnly (images st) h ->
  run w st h = Next w' -> settledInvariant w'.
Proof.
  intros Hc Hs (cs & -> & Hh). unfold run.
  destruct (reloads cs); intros [= <-]; [apply settledInvariant_mount |].
  unfold settledInvariant, update in *. rewrite Hc in Hs.
  destruct Hs as [Hset Hch]. cbn [component inflight].
  destruct (Hh st eq_refl) as (Hi & Hl & He & Hsel).
  rewrite Hl, He, Hi. split; [exact Hset |].
  destruct Hsel as [-> | Hsel]; assumption.
Qed.

Lemma step_settled w ev w' :
  invariant w -> settledInvariant w ->
  step w ev = Next w' -> settledInvariant w'.
Proof.
  intros Hinv Hs. destruct ev as [s | key | target |]; cbn [step].
  - destruct (inflight w) eqn:Hin; [| discriminate].
    destruct (fetchImages_resume_state s initialState) as (cs & -> & Hst).
    destruct (component w) as [st |] eqn:Hc; intros [= <-];
      unfold settledInvariant; cbn [component inflight]; [| exact I].
    assert (st = initialState) as ->.
    { destruct Hinv as [_ Hinv]. rewrite Hc in Hinv. now apply Hinv. }
    rewrite Hst. destruct (outcome s); cbn; split; try (now left); auto.
  - destruct (component w) as [st |] eqn:Hc; [| discriminate].
    apply (run_settled w st _ w' Hc Hs).
    apply lightboxOnly_handleKeyDown.
    destruct Hinv as [_ Hinv]. rewrite Hc in Hinv. tauto.
  - destruct (component w) as [st |] eqn:Hc; [| discriminate].
    destruct (render st) as [tree |] eqn:Hr; [| discriminate].
    destruct (handlersAlong target tree) as [hs |] eqn:Hp; [| discriminate].
    apply (run_settled w st _ w' Hc Hs).
    apply (lightboxOnly_click st tree target hs); try assumption.
    destruct Hinv as [_ Hinv]. rewrite Hc in Hinv. tauto.
  - destruct (component w); [| discriminate].
    intros [= <-]. exact I.
Qed.

Lemma reachable_settled w : reachable w -> settledInvariant w.
Proof.
  induction 1 as [| w ev w' Hr IH Hstep]; [apply settledInvariant_mount |].
  exact (step_settled w ev w' (reachable_invariant w Hr) IH Hstep).
Qed.

(** X2. In every reachable world the mounted component is in its initial
    state for as long as the request is in flight; once it has settled,
    [loading] is false for good and the array and the error are never both
    filled. *)
Theorem loading_then_images_or_error w st :
  reachable w -> component w = Some st ->
  (inflight w = true -> st = initialState)
  /\ (inflight w = false ->
        loading st = false /\ (images st = [] \/ error st = None)).
Proof.
  intros Hr Hc.
  pose proof (reachable_invariant w Hr) as [_ Hinv].
  pose proof (reachable_settled w Hr) as Hs.
  unfold settledInvariant in Hs. rewrite Hc in Hinv, Hs. tauto.
Qed.

Lemma truthy_or_else (a : JS.optstr) :
  JS.truthy (Some (JS.or_else a EmptyString)) = true ->
  a = Some (JS.or_else a EmptyString).
Proof.
  destruct a as [s |]; cbn; [| discriminate].
  destruct (String.eqb s EmptyString); [discriminate | reflexivity].
Qed.

Lemma open_lightbox_render w st :
  reachable w -> component w = Some st -> lightboxOpen st = true ->
  exists s i img,
    selectedImage st = Some s
    /\ selectedImageIndex st = Some i
    /\ JS.array_get (images st) i = Some img
    /\ src img = Some s
    /\ loading st = false
    /\ JS.truthy (error st) = false
    /\ render st
       = Some (page [grid st;
                     Elem "AnimatePresence" EmptyString None
                          [lightbox st s i img]]).
Proof.
  intros Hr Hc Ho.
  pose proof (reachable_invariant w Hr) as [_ Hinv].
  pose proof (reachable_settled w Hr) as Hs.
  unfold settledInvariant in Hs. rewrite Hc in Hinv, Hs.
  destruct Hinv as [_ Hinit]. destruct Hs as [Hset Hch].
  unfold lightboxOpen in Ho. apply andb_true_iff in Ho as [Ht Hidx].
  destruct Hch as [E | (i & img & Hget & Hi & Hsel)].
  { injection E as E1 E2. rewrite E1 in Ht. discriminate. }
  cbn [selection fst snd] in Hi, Hsel.
  assert (Hsrc : selectedImage st = src img).
  { destruct Hsel as [E | E]; [| exact E].
    rewrite E in Ht. now rewrite <- (truthy_or_else _ Ht) in E. }
  destruct (selectedImage st) as [s |] eqn:Hsel'; [| discriminate].
  assert (Hne : images st <> []).
  { intros E. rewrite E in Hget. apply array_get_bounds in Hget.
    cbn in Hget. lia. }
  assert (Hin : inflight w = false).
  { destruct (inflight w); [| reflexivity].
    rewrite (Hinit eq_refl) in Hi. discriminate. }
  destruct (Hset Hin) as [Hl [He | He]]; [contradiction |].
  assert (He' : JS.truthy (error st) = false) by now rewrite He.
  exists s, i, img. repeat split; try assumption; try congruence.
  rewrite (render_grid st Hl He' Hne). unfold modal.
  now rewrite Hsel', Hi, Ht, Hget.
Qed.

Lemma lightboxDateLine_in_lightbox st s i img :
  incl (lightboxDateLine img) (descendants (lightbox st s i img)).
Proof.
  intros e He. unfold lightbox.
  eapply descendants_child; [now left |].
  eapply descendants_child; [do 4 right; now left |].
  eapply descendants_child; [| apply descendants_self].
  now right.
Qed.

(** X3. Whenever the lightbox is open in a reachable world, the grid view is
    on screen and the modal belongs to one record of the array: the
    enlarged image has that record's [src], which is also the stored
    [selectedImage], the counter shows the record's position, and the date
    line is that record's. *)
Theorem open_lightbox_shows_selected_record w st :
  reachable w -> component w = Some st -> lightboxOpen st = true ->
  exists s i img tree,
    JS.array_get (images st) i = Some img
    /\ selection st = (Some s, Some i)
    /\ src img = Some s
    /\ render st = Some tree
    /\ In (Image s "Enlarged view" "object-contain rounded-3xl")
          (descendants tree)
    /\ shows (counterText i (JS.length (images st))) tree = true
    /\ incl (lightboxDateLine img) (descendants tree).
Proof.
  intros Hr Hc Ho.
  destruct (open_lightbox_render w st Hr Hc Ho)
    as (s & i & img & Hs & Hi & Hget & Hsrc & _ & _ & Hrender).
  exists s, i, img. eexists.
  split; [exact Hget |]. split; [unfold selection; now rewrite Hs, Hi |].
  split; [exact Hsrc |]. split; [exact Hrender |]. split; [| split].
  - unfold page.
    eapply descendants_child; [right; now left |].
    eapply descendants_child; [now left |]. unfold lightbox.
    eapply descendants_child; [now left |].
    eapply descendants_child; [now left |].
    eapply descendants_child; [now left | apply descendants_self].
  - apply counter_shown.
  - intros e He. unfold page.
    eapply descendants_child; [right; now left |].
    eapply descendants_child; [now left |].
    now apply lightboxDateLine_in_lightbox.
Qed.

(** *** Clicks inside the modal *)

Lemma step_click w st tree target hs :
  component w = Some st -> render st = Some tree ->
  handlersAlong target tree = Some hs ->
  step w (Click target) = run w st (dispatch (rev hs)).
Proof.
  intros Hc Hr Hp. cbn [step]. now rewrite Hc, Hr, Hp.
Qed.

Lemma handlersAlong_modal st s i img :
  let tree := page [grid st;
                    Elem "AnimatePresence" EmptyString None
                         [lightbox st s i img]] in
  handlersAlong backdropPath tree = Some [closeImage]
  /\ handlersAlong contentPath tree
     = Some [closeImage; Comp.emit StopPropagation]
  /\ handlersAlong enlargedImagePath tree
     = Some [closeImage; Comp.emit StopPropagation]
  /\ handlersAlong counterPath tree
     = Some [closeImage; Comp.emit StopPropagation]
  /\ (forall d,
        handlersAlong (arrowButtonPath d) tree
        = Some [closeImage; Comp.emit StopPropagation;
                Comp.emit StopPropagation ;;; navigateImage st d])
  /\ handlersAlong closeButtonPath tree
     = Some [closeImage; Comp.emit StopPropagation;
             Comp.emit StopPropagation ;;; closeImage].
Proof.
  cbn zeta. repeat split. now intros [|].
Qed.

Lemma run_stop w st :
  run w st (dispatch (rev [closeImage; Comp.emit StopPropagation]))
  = Next {| component := Some st;
            inflight := inflight w;
            trace := trace w ++ [StopPropagation] |}.
Proof.
  unfold run, update.
  cbn [dispatch rev app Comp.bind Comp.emit Comp.ret stopsPropagation
       Comp.calls fst existsb reloads orb applyCalls fold_left applyCall].
  now rewrite (rerunEffects_unchanged st [StopPropagation]).
Qed.

Lemma run_closeImage w st s :
  selectedImage st = Some s ->
  run w st closeImage
  = Next {| component := Some (deselected st);
            inflight := inflight w;
            trace := trace w ++ [SetSelectedImage None;
                                 SetSelectedImageIndex None;
                                 RemoveKeydownListener;
                                 AddKeydownListener] |}.
Proof.
  intros Hs. unfold run, update, rerunEffects, keydownDepsChanged.
  cbn [closeImage Comp.bind Comp.emit app reloads existsb orb applyCalls
       fold_left applyCall selectedImage selectedImageIndex].
  rewrite Hs. reflexivity.
Qed.

(** X4. With the lightbox open in a reachable world, a click on the modal's
    content, on the enlarged image or on the counter stops at the content's
    own handler: the state is unchanged, the lightbox stays open and
    nothing else is called.  A click on the backdrop itself runs
    [closeImage] and deselects, after which the keydown effect, whose
    dependencies have changed, removes its listener and adds it again. *)
Theorem clicks_inside_lightbox_do_not_close w st :
  reachable w -> component w = Some st -> lightboxOpen st = true ->
  (forall target,
     In target [contentPath; enlargedImagePath; counterPath] ->
     step w (Click target)
     = Next {| component := Some st;
               inflight := inflight w;
               trace := trace w ++ [StopPropagation] |})
  /\ step w (Click backdropPath)
     = Next {| component := Some (deselected st);
               inflight := inflight w;
               trace := trace w ++ [SetSelectedImage None;
                                    SetSelectedImageIndex None;
                                    RemoveKeydownListener;
                                    AddKeydownListener] |}.
Proof.
  intros Hr Hc Ho.
  destruct (open_lightbox_render w st Hr Hc Ho)
    as (s & i & img & Hs & _ & _ & _ & _ & _ & Hrender).
  destruct (handlersAlong_modal st s i img)
    as (Hback & Hcontent & Himage & Hcounter & _ & _).
  split.
  - intros target [<- | [<- | [<- | []]]].
    + now rewrite (step_click w st _ _ _ Hc Hrender Hcontent), run_stop.
    + now rewrite (step_click w st _ _ _ Hc Hrender Himage), run_stop.
    + now rewrite (step_click w st _ _ _ Hc Hrender Hcounter), run_stop.
  - rewrite (step_click w st _ _ _ Hc Hrender Hback).
    cbn [rev app dispatch].
    replace (closeImage ;;;
             (if stopsPropagation closeImage then Comp.ret tt
              else Comp.ret tt))
      with closeImage by reflexivity.
    exact (run_closeImage w st s Hs).
Qed.

(** *** Keys, buttons and the way back *)

Lemma handleKeyDown_open st :
  JS.truthy (selectedImage st) = true ->
  handleKeyDown st "Escape" = closeImage
  /\ forall d, handleKeyDown st (arrowKey d) = navigateImage st d.
Proof.
  intros Ht. unfold handleKeyDown. rewrite Ht. split; [reflexivity |].
  now intros [|].
Qed.

Lemma close_lightbox w st ev :
  reachable w -> component w = Some st -> lightboxOpen st = true ->
  In ev [KeyDown "Escape"; Click closeButtonPath; Click backdropPath] ->
  exists w', step w ev = Next w' /\ component w' = Some (deselected st)
             /\ inflight w' = inflight w.
Proof.
  intros Hr Hc Ho Hev.
  assert (Ht : JS.truthy (selectedImage st) = true)
    by (unfold lightboxOpen in Ho; now apply andb_true_iff in Ho).
  destruct (open_lightbox_render w st Hr Hc Ho)
    as (s & i & img & Hs & _ & _ & _ & _ & _ & Hrender).
  destruct (handlersAlong_modal st s i img)
    as (Hback & _ & _ & _ & _ & Hclose).
  destruct Hev as [<- | [<- | [<- | []]]].
  - cbn [step]. rewrite Hc.
    rewrite (proj1 (handleKeyDown_open st Ht)).
    eexists. repeat split.
  - rewrite (step_click w st _ _ _ Hc Hrender Hclose).
    eexists. repeat split.
  - rewrite (step_click w st _ _ _ Hc Hrender Hback).
    eexists. repeat split.
Qed.

Lemma arrow_lightbox w st i d ev :
  reachable w -> component w = Some st -> lightboxOpen st = true ->
  selectedImageIndex st = Some i ->
  In ev [KeyDown (arrowKey d); Click (arrowButtonPath d)] ->
  exists img' w',
    JS.array_get (images st) (target d (JS.length (images st)) i) = Some img'
    /\ step w ev = Next w'
    /\ component w'
       = Some (mkState (images st) (src img')
                 (Some (target d (JS.length (images st)) i))
                 (loading st) (error st))
    /\ inflight w' = inflight w.
Proof.
  intros Hr Hc Ho Hi Hev.
  assert (Ht : JS.truthy (selectedImage st) = true)
    by (unfold lightboxOpen in Ho; now apply andb_true_iff in Ho).
  destruct (open_lightbox_render w st Hr Hc Ho)
    as (s & j & img & Hs & Hj & _ & _ & _ & _ & Hrender).
  destruct (reachable_wellFormed w st Hr Hc) as [Hb _].
  destruct (navigateImage_in_bounds st d i Hi (Hb i Hi))
    as (img' & Hget & Hnav).
  exists img'.
  destruct (handlersAlong_modal st s j img) as (_ & _ & _ & _ & Harrow & _).
  specialize (Harrow d). rewrite Hnav in Harrow.
  destruct Hev as [<- | [<- | []]].
  - cbn [step]. rewrite Hc.
    rewrite (proj2 (handleKeyDown_open st Ht) d), Hnav.
    eexists. repeat split. exact Hget.
  - rewrite (step_click w st _ _ _ Hc Hrender Harrow).
    eexists. repeat split. exact Hget.
Qed.

(** X5. With the lightbox open at index [i] in a reachable world, the arrow
    key and the arrow button of a direction lead to the same state, the one
    [navigateImage] computes; and [Escape], the close button and a click on
    the backdrop all lead to the state with nothing selected. *)
Theorem keys_and_buttons_agree w st i :
  reachable w -> component w = Some st -> lightboxOpen st = true ->
  selectedImageIndex st = Some i ->
  (forall d, exists w1 w2 st',
     step w (KeyDown (arrowKey d)) = Next w1
     /\ step w (Click (arrowButtonPath d)) = Next w2
     /\ component w1 = Some st' /\ component w2 = Some st'
     /\ images st' = images st
     /\ selectedImageIndex st'
        = Some (target d (JS.length (images st)) i))
  /\ (exists w1 w2 w3,
        step w (KeyDown "Escape") = Next w1
        /\ step w (Click closeButtonPath) = Next w2
        /\ step w (Click backdropPath) = Next w3
        /\ component w1 = Some (deselected st)
        /\ component w2 = Some (deselected st)
        /\ component w3 = Some (deselected st)
        /\ lightboxOpen (deselected st) = false).
Proof.
  intros Hr Hc Ho Hi. split.
  - intros d.
    destruct (arrow_lightbox w st i d (KeyDown (arrowKey d)) Hr Hc Ho Hi)
      as (img1 & w1 & Hg1 & Hs1 & Hc1 & _); [now left |].
    destruct (arrow_lightbox w st i d (Click (arrowButtonPath d))
                Hr Hc Ho Hi)
      as (img2 & w2 & Hg2 & Hs2 & Hc2 & _); [right; now left |].
    assert (img2 = img1) by congruence. subst img2.
    exists w1, w2. eexists.
    split; [exact Hs1 |]. split; [exact Hs2 |]. split; [exact Hc1 |].
    split; [exact Hc2 |]. split; reflexivity.
  - destruct (close_lightbox w st (KeyDown "Escape") Hr Hc Ho)
      as (w1 & Hs1 & Hc1 & _); [now left |].
    destruct (close_lightbox w st (Click closeButtonPath) Hr Hc Ho)
      as (w2 & Hs2 & Hc2 & _); [right; now left |].
    destruct (close_lightbox w st (Click backdropPath) Hr Hc Ho)
      as (w3 & Hs3 & Hc3 & _); [do 2 right; now left |].
    exists w1, w2, w3. repeat split; assumption.
Qed.

Lemma deselected_closed st :
  selection st = (None, None) -> deselected st = st.
Proof.
  destruct st as [imgs sel idx l e]. unfold selection, deselected. cbn.
  now intros [= -> ->].
Qed.

(** X6. Opening and closing is a round trip: from a reachable world showing
    the grid with nothing selected, clicking a tile whose record has a
    non-empty [src] and then pressing [Escape], clicking the close button or
    clicking the backdrop brings back exactly the state before the click. *)
Theorem open_then_close_restores_state w st i img closing :
  reachable w -> component w = Some st ->
  selection st = (None, None) ->
  loading st = false -> JS.truthy (error st) = false ->
  JS.array_get (images st) i = Some img -> JS.truthy (src img) = true ->
  In closing [KeyDown "Escape"; Click closeButtonPath; Click backdropPath] ->
  exists w1 st1 w2,
    step w (Click (tilePath i)) = Next w1
    /\ component w1 = Some st1 /\ lightboxOpen st1 = true
    /\ step w1 closing = Next w2
    /\ component w2 = Some st.
Proof.
  intros Hr Hc Hsel Hl He Hget Hsrc Hclosing.
  pose proof (reachable_wellFormed w st Hr Hc) as Hw.
  pose proof (click_tile w st i img Hw Hc Hl He Hget) as Hstep.
  fold (tilePath i) in Hstep.
  set (st1 := mkState (images st)
                (Some (JS.or_else (src img) EmptyString)) (Some i) false
                (error st)) in *.
  match type of Hstep with _ = Next ?w => set (w1 := w) in * end.
  assert (Ho : lightboxOpen st1 = true).
  { unfold lightboxOpen, st1. cbn [selectedImage selectedImageIndex].
    destruct (src img) as [s |]; [| discriminate]. cbn in *.
    destruct (String.eqb s EmptyString) eqn:E; [discriminate |].
    now rewrite E. }
  assert (Hr1 : reachable w1) by exact (reachable_step w _ w1 Hr Hstep).
  destruct (close_lightbox w1 st1 closing Hr1 eq_refl Ho Hclosing)
    as (w2 & Hs2 & Hc2 & _).
  exists w1, st1, w2. repeat split; try assumption.
  rewrite Hc2. f_equal. rewrite <- (deselected_closed st Hsel).
  unfold deselected, st1. cbn. now rewrite Hl.
Qed.

Lemma target_inverse n i :
  0 <= i < n ->
  target prev n (target next n i) = i /\ target next n (target prev n i) = i.
Proof.
  intros H. unfold target. split.
  - destruct (Z.ltb_spec i (n - 1)).
    + destruct (Z.gtb_spec (i + 1) 0); lia.
    + destruct (Z.gtb_spec 0 0); lia.
  - destruct (Z.gtb_spec i 0).
    + destruct (Z.ltb_spec (i - 1) (n - 1)); lia.
    + destruct (Z.ltb_spec (n - 1) (n - 1)); lia.
Qed.

(** X7. [navigateImage('next')] and [navigateImage('prev')] undo each other:
    from a selected index [i] of a non-empty array, either one followed by
    the other returns to [i] with [selectedImage] set to the [src] of the
    record at [i], and the array untouched. *)
Theorem next_and_prev_are_inverse st i d :
  selectedImageIndex st = Some i -> 0 <= i < JS.length (images st) ->
  exists img st1 st2,
    JS.array_get (images st) i = Some img
    /\ navigateTimes 1 d st = Some st1
    /\ navigateTimes 1 (match d with prev => next | next => prev end) st1
       = Some st2
    /\ images st2 = images st
    /\ selection st2 = (src img, Some i).
Proof.
  intros Hi Hb.
  destruct (array_get_Some (images st) i Hb) as [img Hget].
  destruct (navigateImage_in_bounds st d i Hi Hb) as (img1 & Hg1 & Hn1).
  set (n := JS.length (images st)) in *.
  set (st1 := mkState (images st) (src img1) (Some (target d n i))
                (loading st) (error st)).
  set (d' := match d with prev => next | next => prev end).
  destruct (navigateImage_in_bounds st1 d' (target d n i) eq_refl
              (target_bounds d n i Hb)) as (img2 & Hg2 & Hn2).
  assert (Hback : target d' (JS.length (images st1)) (target d n i) = i).
  { change (JS.length (images st1)) with n.
    destruct d; apply (target_inverse n i Hb). }
  rewrite Hback in Hg2, Hn2. change (images st1) with (images st) in Hg2.
  assert (img2 = img) by congruence. subst img2.
  exists img, st1. eexists. split; [exact Hget |].
  cbn [navigateTimes]. rewrite Hn1. split; [reflexivity |].
  fold st1. rewrite Hn2. repeat split.
Qed.

(** *** Navigating onto a record *)

(** X8. Navigating with an arrow key from an open lightbox stores the
    [src] of the record moved to as [selectedImage], with no fallback: the
    lightbox stays open exactly when that [src] is a non-empty string.
    When it is not, the index has still moved but the modal is gone and
    every further key press leaves the state as it is. *)
Theorem arrow_key_keeps_lightbox_open_iff_src w st i d :
  reachable w -> component w = Some st -> lightboxOpen st = true ->
  selectedImageIndex st = Some i ->
  exists img' w' st',
    JS.array_get (images st) (target d (JS.length (images st)) i) = Some img'
    /\ step w (KeyDown (arrowKey d)) = Next w'
    /\ component w' = Some st'
    /\ selection st'
       = (src img', Some (target d (JS.length (images st)) i))
    /\ lightboxOpen st' = JS.truthy (src img')
    /\ (JS.truthy (src img') = false ->
        modal st' = Some []
        /\ forall key, exists w'',
             step w' (KeyDown key) = Next w'' /\ component w'' = Some st').
Proof.
  intros Hr Hc Ho Hi.
  destruct (arrow_lightbox w st i d (KeyDown (arrowKey d)) Hr Hc Ho Hi)
    as (img' & w' & Hget & Hstep & Hc' & _); [now left |].
  exists img', w'. eexists. split; [exact Hget |]. split; [exact Hstep |].
  split; [exact Hc' |]. split; [reflexivity |]. split.
  - unfold lightboxOpen. cbn. apply andb_true_r.
  - intros Hf. split.
    + unfold modal. cbn [selectedImage selectedImageIndex].
      destruct (src img') as [s |]; [| reflexivity]. now rewrite Hf.
    + intros key. cbn [step]. rewrite Hc'. unfold handleKeyDown.
      cbn [selectedImage]. rewrite Hf. cbn. eexists. split; reflexivity.
Qed.

(** *** The error panel *)

(** X9. In the error view the only click handler is the one of the
    [Try Again] button, and clicking it reloads the page: the component
    starts over in its initial state, showing the spinner, with a new
    request in flight. *)
Theorem try_again_reloads_the_page w st :
  component w = Some st -> loading st = false ->
  JS.truthy (error st) = true ->
  (exists tree, render st = Some tree
     /\ allHandlers tree = [Comp.emit LocationReload])
  /\ step w (Click tryAgainPath) = Next (mount (trace w ++ [LocationReload]))
  /\ component (mount (trace w ++ [LocationReload])) = Some initialState
  /\ inflight (mount (trace w ++ [LocationReload])) = true
  /\ render initialState = Some loadingView.
Proof.
  intros Hc Hl He.
  assert (Hr : render st = Some (errorView (JS.childText (error st))))
    by (unfold render; now rewrite Hl, He).
  split; [eexists; split; [exact Hr | reflexivity] |].
  split; [| repeat split].
  rewrite (step_click w st _ tryAgainPath [Comp.emit LocationReload] Hc Hr);
    reflexivity.
Qed.

(** *** Who writes what *)

Lemma event_lightboxOnly w st ev :
  reachable w -> component w = Some st -> interaction ev = true ->
  step w ev = Impossible
  \/ exists h, step w ev = run w st h /\ lightboxOnly (images st) h
       /\ (inflight w = true -> h = Comp.ret tt).
Proof.
  intros Hr Hc Hev.
  pose proof (reachable_wellFormed w st Hr Hc) as Hw.
  pose proof (reachable_invariant w Hr) as [_ Hinv]. rewrite Hc in Hinv.
  destruct Hinv as [_ Hinit].
  destruct ev as [s | key | target |]; try discriminate; cbn [step];
    rewrite Hc.
  - right. eexists. split; [reflexivity |].
    split; [now apply lightboxOnly_handleKeyDown |].
    intros Hin. now rewrite (Hinit Hin).
  - destruct (render st) as [tree |] eqn:Hrender; [| now left].
    destruct (handlersAlong target tree) as [hs |] eqn:Hp; [| now left].
    right. eexists. split; [reflexivity |].
    split; [exact (lightboxOnly_click st tree target hs Hw Hrender Hp) |].
    intros Hin. rewrite (Hinit Hin) in Hrender.
    apply (initial_handler_idle (Click target)). now rewrite Hrender, Hp.
Qed.

(** X10. While the request is in flight, the mounted component of a
    reachable world shows the spinner and no key press or click does
    anything: the event either cannot happen (there is no such node) or
    leaves the state and the trace as they are. *)
Theorem nothing_happens_while_loading w st ev :
  reachable w -> component w = Some st -> inflight w = true ->
  interaction ev = true ->
  render st = Some loadingView
  /\ (step w ev = Impossible
      \/ exists w', step w ev = Next w'
           /\ component w' = Some st
           /\ inflight w' = true
           /\ trace w' = trace w).
Proof.
  intros Hr Hc Hin Hev. split.
  - pose proof (reachable_invariant w Hr) as [_ Hinv]. rewrite Hc in Hinv.
    destruct Hinv as [_ Hinit]. now rewrite (Hinit Hin).
  - destruct (event_lightboxOnly w st ev Hr Hc Hev)
      as [E | (h & E & _ & Hidle)]; [now left | right].
    rewrite E, (Hidle Hin), run_ret. eexists. split; [reflexivity |].
    cbn. auto.
Qed.

(** X11. A key press or a click never writes the array, the loading flag or
    the error: in a reachable world such an event either reloads the page
    or leaves [images], [loading] and [error] exactly as they were, so only
    the settling request ever fills them. *)
Theorem interactions_touch_only_the_selection w st ev w' :
  reachable w -> component w = Some st -> interaction ev = true ->
  step w ev = Next w' ->
  (exists before, w' = mount before)
  \/ exists st',
       component w' = Some st'
       /\ inflight w' = inflight w
       /\ images st' = images st
       /\ loading st' = loading st
       /\ error st' = error st.
Proof.
  intros Hr Hc Hev Hstep.
  destruct (event_lightboxOnly w st ev Hr Hc Hev)
    as [E | (h & E & (cs & -> & Hh) & _)]; rewrite E in Hstep;
    [discriminate |].
  unfold run in Hstep. destruct (reloads cs); injection Hstep as <-.
  - left. now eexists.
  - right. eexists. split; [reflexivity |]. split; [reflexivity |].
    destruct (Hh st eq_refl) as (Hi & Hl & He & _). auto.
Qed.

(** *** The grid *)

Lemma mapi_from_nth_error {A B} (f : A -> Z -> B) (a : list A) :
  forall k j,
    nth_error (JS.mapi_from f k a) j
    = option_map (fun x => f x (k + Z.of_nat j)) (nth_error a j).
Proof.
  induction a as [| x a IH]; intros k j; destruct j; try reflexivity.
  - cbn. now rewrite Z.add_0_r.
  - cbn [JS.mapi_from nth_error]. rewrite IH.
    destruct (nth_error a j); [| reflexivity]. cbn. do 2 f_equal. lia.
Qed.

Lemma mapi_from_length {A B} (f : A -> Z -> B) (a : list A) :
  forall k, List.length (JS.mapi_from f k a) = List.length a.
Proof.
  induction a as [| x a IH]; intros k; [reflexivity |].
  cbn. now rewrite IH.
Qed.

Lemma tiles_are_tiles (a : list GalleryImage) :
  forall k, forallb isTile (JS.mapi_from tile k a) = true.
Proof.
  induction a as [| x a IH]; intros k; [reflexivity |].
  cbn [JS.mapi_from forallb]. now rewrite IH.
Qed.

(** X12. The grid has exactly one tile per record, in the order of the
    array and with nothing re-sorted or dropped: its [k]-th child is the
    tile of the [k]-th record, and a click on it runs [openImage] with that
    record's [src] (or the empty string) and the position [k] itself. *)
Theorem one_tile_per_record_in_order st :
  List.length (children (grid st)) = List.length (images st)
  /\ (forall k,
        nth_error (children (grid st)) k
        = option_map (fun img => tile img (Z.of_nat k))
                     (nth_error (images st) k))
  /\ forallb isTile (children (grid st)) = true
  /\ (forall i img m,
        JS.array_get (images st) i = Some img ->
        handlersAlong (tilePath i)
          (page [grid st; Elem "AnimatePresence" EmptyString None m])
        = Some [openImage (JS.or_else (src img) EmptyString) i]).
Proof.
  unfold grid, JS.mapi. cbn [children]. split; [| split; [| split]].
  - apply mapi_from_length.
  - intros k. now rewrite mapi_from_nth_error.
  - apply tiles_are_tiles.
  - intros i img m Hget. exact (handlersAlong_tile st m i img Hget).
Qed.

(** *** The view once the request has settled *)

(** X13. When the request of a reachable world settles, the view is decided
    by the outcome alone: a parsed array gives the empty panel if it is
    empty and otherwise the grid with no modal; a failure gives the error
    panel with the surfaced message, except that an empty message (an
    [Error] without text) gives the empty panel, because the error is
    tested for truthiness. *)
Theorem view_after_settling w st settled :
  reachable w -> component w = Some st -> inflight w = true ->
  exists w' st',
    step w (Settle settled) = Next w'
    /\ component w' = Some st'
    /\ inflight w' = false
    /\ render st'
       = Some match outcome settled with
              | inl data =>
                  if JS.length data =? 0 then emptyView
                  else page [grid st';
                             Elem "AnimatePresence" EmptyString None []]
              | inr v =>
                  if String.eqb (surfaced v) EmptyString then emptyView
                  else errorView (surfaced v)
              end.
Proof.
  intros Hr Hc Hin.
  pose proof (reachable_invariant w Hr) as [_ Hinv]. rewrite Hc in Hinv.
  destruct Hinv as [_ Hinit]. specialize (Hinit Hin). subst st.
  destruct (fetchImages_resume_state settled initialState)
    as (cs & E & Hst).
  cbn [step]. rewrite Hin, E, Hc. cbn [option_map].
  eexists. eexists. split; [reflexivity |]. split; [reflexivity |].
  split; [reflexivity |]. rewrite Hst.
  destruct (outcome settled) as [data | v]; unfold render; cbn.
  - now destruct data.
  - now destruct (String.eqb (surfaced v) EmptyString).
Qed.

(** *** Going all the way round with the keyboard *)

Lemma arrow_key_steps d k : forall w st i,
  reachable w -> component w = Some st -> lightboxOpen st = true ->
  selectedImageIndex st = Some i ->
  (forall img, In img (images st) -> JS.truthy (src img) = true) ->
  exists w' st',
    steps w (repeat (KeyDown (arrowKey d)) k) = Some w'
    /\ reachable w'
    /\ component w' = Some st'
    /\ images st' = images st
    /\ loading st' = loading st
    /\ error st' = error st
    /\ lightboxOpen st' = true
    /\ selectedImageIndex st'
       = Some (match d with
               | prev => (i - Z.of_nat k) mod JS.length (images st)
               | next => (i + Z.of_nat k) mod JS.length (images st)
               end).
Proof.
  induction k as [| k IH]; intros w st i Hr Hc Ho Hi Hsrc.
  - destruct (reachable_wellFormed w st Hr Hc) as [Hb _].
    specialize (Hb i Hi).
    exists w, st. cbn [repeat steps Z.of_nat].
    rewrite Z.sub_0_r, Z.add_0_r, Z.mod_small by lia.
    repeat split; try assumption. now destruct d.
  - destruct (reachable_wellFormed w st Hr Hc) as [Hb _].
    specialize (Hb i Hi).
    destruct (arrow_lightbox w st i d (KeyDown (arrowKey d)) Hr Hc Ho Hi)
      as (img' & w1 & Hget & Hstep & Hc1 & _); [now left |].
    set (n := JS.length (images st)) in *.
    set (st1 := mkState (images st) (src img') (Some (target d n i))
                  (loading st) (error st)) in *.
    assert (Hr1 : reachable w1) by exact (reachable_step w _ w1 Hr Hstep).
    assert (Ho1 : lightboxOpen st1 = true).
    { unfold lightboxOpen, st1. cbn [selectedImage selectedImageIndex].
      rewrite (Hsrc img'); [reflexivity |].
      apply array_get_nth in Hget. exact (nth_error_In _ _ Hget). }
    destruct (IH w1 st1 (target d n i) Hr1 Hc1 Ho1 eq_refl Hsrc)
      as (w' & st' & Hsteps & Hr' & Hc' & Hi' & Hl' & He' & Ho' & Hidx').
    exists w', st'. cbn [repeat steps]. rewrite Hstep.
    repeat split; try assumption.
    rewrite Hidx'. change (JS.length (images st1)) with n. f_equal.
    rewrite (target_mod d n i Hb). destruct d.
    + rewrite Zminus_mod_idemp_l. f_equal. lia.
    + rewrite Zplus_mod_idemp_l. f_equal. lia.
Qed.

(** X14. When every record has a non-empty [src], the keyboard goes all the
    way round: from an open lightbox in a reachable world, pressing the
    same arrow key as many times as there are images succeeds each time and
    ends in exactly the state it started from. *)
Theorem arrow_key_cycle_restores_state w st d :
  reachable w -> component w = Some st -> lightboxOpen st = true ->
  (forall img, In img (images st) -> JS.truthy (src img) = true) ->
  exists w',
    steps w (repeat (KeyDown (arrowKey d)) (List.length (images st)))
      = Some w'
    /\ component w' = Some st.
Proof.
  intros Hr Hc Ho Hsrc.
  destruct (open_lightbox_render w st Hr Hc Ho)
    as (s & i & img & Hs & Hi & Hget & Himg & _).
  pose proof (array_get_bounds _ _ _ Hget) as Hb.
  destruct (arrow_key_steps d (List.length (images st)) w st i
              Hr Hc Ho Hi Hsrc)
    as (w' & st' & Hsteps & Hr' & Hc' & Hi' & Hl' & He' & Ho' & Hidx').
  exists w'. split; [exact Hsteps |]. rewrite Hc'. f_equal.
  assert (Hback : selectedImageIndex st' = Some i).
  { rewrite Hidx'. f_equal. fold (JS.length (images st)). destruct d.
    - replace (i - JS.length (images st))
        with (i + (-1) * JS.length (images st)) by lia.
      rewrite Z_mod_plus_full. apply Z.mod_small. lia.
    - replace (i + JS.length (images st))
        with (i + 1 * JS.length (images st)) by lia.
      rewrite Z_mod_plus_full. apply Z.mod_small. lia. }
  destruct (open_lightbox_render w' st' Hr' Hc' Ho')
    as (s' & i' & img'' & Hs' & Hi'' & Hget' & Himg' & _).
  assert (i' = i) by congruence. subst i'.
  rewrite Hi' in Hget'. assert (img'' = img) by congruence. subst img''.
  assert (s' = s) by congruence. subst s'.
  destruct st as [imgs sel idx l e], st' as [imgs' sel' idx' l' e'].
  cbn in *. congruence.
Qed.

(** *** The diagnostic output *)

Lemma forEach_mapi (f : GalleryImage * Z -> Comp.M unit)
      (line : GalleryImage -> Z -> string) (a : list GalleryImage) :
  (forall img i, f (img, i) = Comp.emit (ConsoleLog (line img i))) ->
  forall k,
    Comp.forEach f (JS.mapi_from pair k a)
    = (JS.mapi_from (fun img i => ConsoleLog (line img i)) k a, inl tt).
Proof.
  intros Hf. induction a as [| x a IH]; intros k; [reflexivity |].
  cbn [JS.mapi_from Comp.forEach]. now rewrite Hf, IH.
Qed.

(** X15. On success the continuation logs the parsed array and then, if it
    is not empty, the heading and one line for each of the first five
    records at most, in the array's order: the record's position counted
    from 1, its title as a template literal prints it ([undefined] when
    missing, [null] when null) and its formatted [createdTime].  The two
    state updates follow; at most six lines come between. *)
Theorem success_logs_at_most_five_dates r data :
  ok r = true -> json r = JsonArray data ->
  let lines :=
    match data with
    | [] => []
    | _ :: _ =>
        ConsoleLog "Image dates (should be newest first):"
        :: JS.mapi
             (fun img i =>
                ConsoleLog
                  (JS.numberToString (i + 1) ++ ". "
                     ++ JS.template (title img) ++ ": "
                     ++ formatDate (createdTime img))%string)
             (firstn 5 data)
    end in
  fetchImages_resume (Fulfilled r)
  = (ConsoleLogData "Fetched gallery images:" data
       :: lines ++ [SetImages data; SetLoading false], inl tt)
  /\ (List.length lines <= 6)%nat.
Proof.
  intros Hok Hj lines. split.
  - unfold fetchImages_resume, fetchImages_try, awaitJson.
    cbn -[firstn JS.length JS.mapi]. rewrite Hok, Hj.
    cbn -[firstn JS.length JS.mapi].
    destruct data as [| x data']; [reflexivity |].
    set (data := x :: data') in *.
    assert (Hpos : (JS.length data >? 0) = true).
    { unfold JS.length, data. cbn [List.length].
      destruct (Z.gtb_spec (Z.of_nat (S (List.length data'))) 0); lia. }
    rewrite Hpos. unfold JS.mapi.
    match goal with
    | |- context [Comp.forEach ?f ?a] =>
        rewrite (forEach_mapi f
                   (fun img i =>
                      (JS.numberToString (i + 1) ++ ". "
                         ++ JS.template (title img) ++ ": "
                         ++ formatDate (createdTime img))%string)
                   (firstn 5 data) (fun img i => eq_refl) 0)
    end.
    unfold lines, data, JS.mapi. cbn -[firstn JS.mapi_from].
    now rewrite <- app_assoc.
  - unfold lines. destruct data as [| x data']; [cbn; lia |].
    cbn [List.length]. unfold JS.mapi.
    rewrite mapi_from_length, length_firstn. lia.
Qed.

End Gallery.

(** ** The statements at the sample data *)

Lemma navigateImage_wraps_and_cycles_witness :
  (exists st', navigateTimes 1 prev (galleryState (Some "a.jpg") (Some 0))
               = Some st'
     /\ selectedImageIndex st' = Some 2)
  /\ (exists st', navigateTimes 1 next (galleryState (Some "a.jpg") (Some 0))
                  = Some st'
     /\ selectedImageIndex st' = Some 1)
  /\ (exists st', navigateTimes 3 prev (galleryState (Some "a.jpg") (Some 0))
                  = Some st'
     /\ selectedImageIndex st' = Some 0)
  /\ (exists st', navigateTimes 3 next (galleryState (Some "a.jpg") (Some 0))
                  = Some st'
     /\ selectedImageIndex st' = Some 0).
Proof.
  apply (navigateImage_wraps_and_cycles
           (galleryState (Some "a.jpg") (Some 0)) 0).
  - reflexivity.
  - cbn. lia.
Defined.

Lemma unmount_leaves_fetch_running_witness :
  existsb isAbort
    (trace (afterEvents isoDate
              [Unmount; Settle (Fulfilled (okResponse [imageA]))]))
  = false.
Proof.
  apply (proj1 (unmount_leaves_fetch_running isoDate)).
  apply afterEvents_reachable.
Defined.

(** Unmounting and then letting the request resolve: the trace has no abort,
    and [setImages] and [setLoading] are called after the listener was
    removed. *)
Lemma unmounted_fetch_neither_aborted_nor_discarded :
  steps isoDate (mount [])
        [Unmount; Settle (Fulfilled (okResponse [imageA]))]
  = Some {| component := None;
            inflight := false;
            trace := [SetLoading true; Fetch "/api/gallery";
                      AddKeydownListener; RemoveKeydownListener;
                      ConsoleLogData "Fetched gallery images:" [imageA];
                      ConsoleLog "Image dates (should be newest first):";
                      ConsoleLog "1. First: 2024-01-01";
                      SetImages [imageA]; SetLoading false] |}
  /\ existsb isAbort
       (trace (afterEvents isoDate
                 [Unmount; Settle (Fulfilled (okResponse [imageA]))]))
     = false
  /\ filter isSetter
       (skipn (List.length (trace (afterEvents isoDate [Unmount])))
              (trace (afterEvents isoDate
                        [Unmount; Settle (Fulfilled (okResponse [imageA]))])))
     = [SetImages [imageA]; SetLoading false].
Proof.
  repeat split.
Qed.


Lemma non_2xx_sets_and_shows_error_witness :
  exists w' st',
    step isoDate (mount [])
         (Settle (Fulfilled
                    (mkResponse 500 "Internal Server Error" (JsonArray []))))
      = Next w'
    /\ component w' = Some st'
    /\ loading st' = false
    /\ error st' = Some "Failed to fetch images: 500 Internal Server Error"
    /\ render isoDate st'
       = Some (errorView "Failed to fetch images: 500 Internal Server Error")
    /\ In (Elem "p" "text-gray-700" None
                [Text "Failed to fetch images: 500 Internal Server Error"])
          (descendants
             (errorView "Failed to fetch images: 500 Internal Server Error")).
Proof.
  apply (non_2xx_sets_and_shows_error isoDate (mount []) initialState
           (mkResponse 500 "Internal Server Error" (JsonArray []))).
  - reflexivity.
  - reflexivity.
  - cbn. lia.
Defined.

Lemma lightbox_index_in_bounds_witness :
  0 <= 1 < JS.length (images (galleryState (Some "b.jpg") (Some 1))).
Proof.
  apply (proj1 (lightbox_index_in_bounds isoDate)
           (afterEvents isoDate
              [Settle (Fulfilled (okResponse [imageA; imageB; imageC]));
               Click [0%nat; 1%nat]])).
  - apply afterEvents_reachable.
  - reflexivity.
  - reflexivity.
Defined.

Lemma keyboard_router_witness :
  handleKeyDown (galleryState None None) "Escape" = Comp.ret tt
  /\ exists w',
       step isoDate
            (afterEvents isoDate
               [Settle (Fulfilled (okResponse [imageA; imageB; imageC]))])
            (KeyDown "Escape")
         = Next w'
       /\ component w' = Some (galleryState None None).
Proof.
  apply (proj2 (keyboard_router isoDate)).
  - apply afterEvents_reachable.
  - reflexivity.
  - reflexivity.
Defined.

Lemma empty_gallery_shows_empty_panel_witness :
  exists w' st',
    step isoDate (mount []) (Settle (Fulfilled (okResponse []))) = Next w'
    /\ component w' = Some st'
    /\ images st' = []
    /\ render isoDate st' = Some emptyView.
Proof.
  apply (proj2 (proj2 (proj2 (proj2 (proj2
           (empty_gallery_shows_empty_panel isoDate)))))
           (mount []) initialState (okResponse []));
    reflexivity.
Defined.

(** Clicking the third of three tiles, whose record has an empty [src]:
    index 2 is selected, but the lightbox is not open and no counter is
    shown. *)
Lemma tile_click_without_src_shows_no_counter :
  step isoDate
       (afterEvents isoDate
          [Settle (Fulfilled (okResponse [imageA; imageB; imageC]))])
       (Click [0%nat; 2%nat])
  = Next (afterEvents isoDate
            [Settle (Fulfilled (okResponse [imageA; imageB; imageC]));
             Click [0%nat; 2%nat]])
  /\ component
       (afterEvents isoDate
          [Settle (Fulfilled (okResponse [imageA; imageB; imageC]));
           Click [0%nat; 2%nat]])
     = Some (galleryState (Some EmptyString) (Some 2))
  /\ lightboxOpen (galleryState (Some EmptyString) (Some 2)) = false
  /\ option_map (shows (counterText 2 3))
       (render isoDate (galleryState (Some EmptyString) (Some 2)))
     = Some false.
Proof.
  repeat split.
Qed.

Lemma tile_click_opens_lightbox_with_counter_witness :
  exists tree,
    render isoDate (galleryState (Some "b.jpg") (Some 1)) = Some tree
    /\ shows "2 / 3" tree = true.
Proof.
  apply (proj2 (tile_click_opens_lightbox_with_counter isoDate)
           (afterEvents isoDate
              [Settle (Fulfilled (okResponse [imageA; imageB; imageC]));
               Click [0%nat; 1%nat]])
           (galleryState (Some "b.jpg") (Some 1)) 1).
  - apply afterEvents_reachable.
  - reflexivity.
  - reflexivity.
  - reflexivity.
  - reflexivity.
  - reflexivity.
Defined.

Lemma non_Error_uses_fallback_message_witness :
  fetchImages_resume isoDate (Rejected (JS.VString "offline"))
    = ([SetError (Some "Failed to load gallery images");
        ConsoleError "Error fetching gallery images:" (JS.VString "offline");
        SetLoading false], inl tt)
  /\ error (applyCalls initialState
              (Comp.calls
                 (fetchImages_resume isoDate
                    (Rejected (JS.VString "offline")))))
     = Some "Failed to load gallery images".
Proof.
  apply (proj1 (non_Error_uses_fallback_message isoDate initialState)).
  reflexivity.
Defined.

Lemma tile_without_src_keeps_lightbox_closed_witness :
  exists w' st',
    step isoDate
         (afterEvents isoDate
            [Settle (Fulfilled (okResponse [imageA; imageB; imageC]))])
         (Click [0%nat; Z.to_nat 2])
      = Next w'
    /\ component w' = Some st'
    /\ selectedImageIndex st' = Some 2
    /\ selectedImage st' = Some EmptyString
    /\ lightboxOpen st' = false
    /\ render isoDate st'
       = Some (page [grid isoDate st';
                    Elem "AnimatePresence" EmptyString None []])
    /\ forall key,
         handleKeyDown st' key = Comp.ret tt
         /\ exists w'', step isoDate w' (KeyDown key) = Next w''
              /\ component w'' = Some st'.
Proof.
  apply (tile_without_src_keeps_lightbox_closed isoDate
           (afterEvents isoDate
              [Settle (Fulfilled (okResponse [imageA; imageB; imageC]))])
           (galleryState None None) 2 imageC).
  - apply afterEvents_reachable.
  - reflexivity.
  - reflexivity.
  - reflexivity.
  - reflexivity.
  - reflexivity.
Defined.

(** The scenario with three records: the second tile opens at [2 / 3],
    [ArrowRight] moves to [3 / 3], and [ArrowRight] again wraps to
    [1 / 3]. *)
Example three_records_scenario :
  map (fun evs =>
         match component
                 (afterEvents isoDate
                    (Settle (Fulfilled (okResponse [imageA; imageB; imageD]))
                       :: Click [0%nat; 1%nat] :: evs)) with
         | Some st =>
             (selectedImageIndex st,
              option_map (fun tree => (shows "1 / 3" tree,
                                       shows "2 / 3" tree,
                                       shows "3 / 3" tree))
                         (render isoDate st))
         | None => (None, None)
         end)
      [[]; [KeyDown "ArrowRight"]; [KeyDown "ArrowRight"; KeyDown "ArrowRight"]]
  = [(Some 1, Some (false, true, false));
     (Some 2, Some (false, false, true));
     (Some 0, Some (true, false, false))].
Proof. reflexivity. Qed.

(** The same scenario seen from outside: everything asked of the runtime
    from the page load to the second tile being opened and closed again.
    The keydown listener is re-registered after the array is set and after
    each change of the selection. *)
Example listener_follows_the_selection :
  trace (afterEvents isoDate
           [Settle (Fulfilled (okResponse [imageA]));
            Click [0%nat; 0%nat]; KeyDown "Escape"])
  = [SetLoading true; Fetch "/api/gallery"; AddKeydownListener;
     ConsoleLogData "Fetched gallery images:" [imageA];
     ConsoleLog "Image dates (should be newest first):";
     ConsoleLog "1. First: 2024-01-01";
     SetImages [imageA]; SetLoading false;
     RemoveKeydownListener; AddKeydownListener;
     SetSelectedImage (Some "a.jpg"); SetSelectedImageIndex (Some 0);
     RemoveKeydownListener; AddKeydownListener;
     SetSelectedImage None; SetSelectedImageIndex None;
     RemoveKeydownListener; AddKeydownListener].
Proof. reflexivity. Qed.

(** ** Further statements at the sample data *)

Lemma loading_then_images_or_error_witness :
  loading (galleryState None None) = false
  /\ (images (galleryState None None) = []
      \/ error (galleryState None None) = None).
Proof.
  apply (proj2 (loading_then_images_or_error isoDate
                  (afterEvents isoDate
                     [Settle (Fulfilled
                                (okResponse [imageA; imageB; imageC]))])
                  (galleryState None None)
                  (afterEvents_reachable isoDate _) eq_refl)).
  reflexivity.
Defined.

Lemma open_lightbox_shows_selected_record_witness :
  exists s i img tree,
    JS.array_get (images (galleryState (Some "b.jpg") (Some 1))) i = Some img
    /\ selection (galleryState (Some "b.jpg") (Some 1)) = (Some s, Some i)
    /\ src img = Some s
    /\ render isoDate (galleryState (Some "b.jpg") (Some 1)) = Some tree
    /\ In (Image s "Enlarged view" "object-contain rounded-3xl")
          (descendants tree)
    /\ shows (counterText i
                (JS.length (images (galleryState (Some "b.jpg") (Some 1)))))
             tree = true
    /\ incl (lightboxDateLine isoDate img) (descendants tree).
Proof.
  apply (open_lightbox_shows_selected_record isoDate
           (afterEvents isoDate
              [Settle (Fulfilled (okResponse [imageA; imageB; imageC]));
               Click [0%nat; 1%nat]])).
  - apply afterEvents_reachable.
  - reflexivity.
  - reflexivity.
Defined.

Lemma clicks_inside_lightbox_do_not_close_witness :
  exists w',
    step isoDate
         (afterEvents isoDate
            [Settle (Fulfilled (okResponse [imageA; imageB; imageC]));
             Click [0%nat; 1%nat]])
         (Click enlargedImagePath) = Next w'
    /\ component w' = Some (galleryState (Some "b.jpg") (Some 1)).
Proof.
  eexists. split.
  - apply (proj1 (clicks_inside_lightbox_do_not_close isoDate
                    (afterEvents isoDate
                       [Settle (Fulfilled
                                  (okResponse [imageA; imageB; imageC]));
                        Click [0%nat; 1%nat]])
                    (galleryState (Some "b.jpg") (Some 1))
                    (afterEvents_reachable isoDate _) eq_refl eq_refl)).
    right. left. reflexivity.
  - reflexivity.
Defined.

Lemma keys_and_buttons_agree_witness :
  exists w1 w2 st',
    step isoDate
         (afterEvents isoDate
            [Settle (Fulfilled (okResponse [imageA; imageB; imageC]));
             Click [0%nat; 1%nat]])
         (KeyDown "ArrowLeft") = Next w1
    /\ step isoDate
         (afterEvents isoDate
            [Settle (Fulfilled (okResponse [imageA; imageB; imageC]));
             Click [0%nat; 1%nat]])
         (Click prevButtonPath) = Next w2
    /\ component w1 = Some st' /\ component w2 = Some st'
    /\ images st' = [imageA; imageB; imageC]
    /\ selectedImageIndex st' = Some 0.
Proof.
  apply (proj1 (keys_and_buttons_agree isoDate
                  (afterEvents isoDate
                     [Settle (Fulfilled
                                (okResponse [imageA; imageB; imageC]));
                      Click [0%nat; 1%nat]])
                  (galleryState (Some "b.jpg") (Some 1)) 1
                  (afterEvents_reachable isoDate _)
                  eq_refl eq_refl eq_refl) prev).
Defined.

Lemma open_then_close_restores_state_witness :
  exists w1 st1 w2,
    step isoDate
         (afterEvents isoDate
            [Settle (Fulfilled (okResponse [imageA; imageB; imageC]))])
         (Click (tilePath 1)) = Next w1
    /\ component w1 = Some st1 /\ lightboxOpen st1 = true
    /\ step isoDate w1 (KeyDown "Escape") = Next w2
    /\ component w2 = Some (galleryState None None).
Proof.
  apply (open_then_close_restores_state isoDate
           (afterEvents isoDate
              [Settle (Fulfilled (okResponse [imageA; imageB; imageC]))])
           (galleryState None None) 1 imageB (KeyDown "Escape")).
  - apply afterEvents_reachable.
  - reflexivity.
  - reflexivity.
  - reflexivity.
  - reflexivity.
  - reflexivity.
  - reflexivity.
  - left. reflexivity.
Defined.

Lemma next_and_prev_are_inverse_witness :
  exists img st1 st2,
    JS.array_get [imageA; imageB; imageC] 2 = Some img
    /\ navigateTimes 1 next (galleryState None (Some 2)) = Some st1
    /\ navigateTimes 1 prev st1 = Some st2
    /\ images st2 = [imageA; imageB; imageC]
    /\ selection st2 = (src img, Some 2).
Proof.
  apply (next_and_prev_are_inverse (galleryState None (Some 2)) 2 next).
  - reflexivity.
  - cbn. lia.
Defined.

Lemma arrow_key_keeps_lightbox_open_iff_src_witness :
  exists img' w' st',
    JS.array_get [imageA; imageB; imageC] 2 = Some img'
    /\ step isoDate
         (afterEvents isoDate
            [Settle (Fulfilled (okResponse [imageA; imageB; imageC]));
             Click [0%nat; 1%nat]])
         (KeyDown "ArrowRight") = Next w'
    /\ component w' = Some st'
    /\ selection st' = (src img', Some 2)
    /\ lightboxOpen st' = JS.truthy (src img')
    /\ (JS.truthy (src img') = false ->
        modal isoDate st' = Some []
        /\ forall key, exists w'',
             step isoDate w' (KeyDown key) = Next w''
             /\ component w'' = Some st').
Proof.
  apply (arrow_key_keeps_lightbox_open_iff_src isoDate
           (afterEvents isoDate
              [Settle (Fulfilled (okResponse [imageA; imageB; imageC]));
               Click [0%nat; 1%nat]])
           (galleryState (Some "b.jpg") (Some 1)) 1 next).
  - apply afterEvents_reachable.
  - reflexivity.
  - reflexivity.
  - reflexivity.
Defined.

Lemma try_again_reloads_the_page_witness :
  step isoDate
       (afterEvents isoDate [Settle (Rejected (JS.VString "offline"))])
       (Click tryAgainPath)
  = Next (mount
            (trace (afterEvents isoDate
                      [Settle (Rejected (JS.VString "offline"))])
               ++ [LocationReload])).
Proof.
  apply (proj1 (proj2
           (try_again_reloads_the_page isoDate
              (afterEvents isoDate [Settle (Rejected (JS.VString "offline"))])
              (mkState [] None None false
                       (Some "Failed to load gallery images"))
              eq_refl eq_refl eq_refl))).
Defined.

Lemma nothing_happens_while_loading_witness :
  render isoDate initialState = Some loadingView
  /\ (step isoDate (mount []) (Click [0%nat; 0%nat]) = Impossible
      \/ exists w', step isoDate (mount []) (Click [0%nat; 0%nat]) = Next w'
           /\ component w' = Some initialState
           /\ inflight w' = true
           /\ trace w' = trace (mount [])).
Proof.
  apply (nothing_happens_while_loading isoDate (mount []) initialState
           (Click [0%nat; 0%nat])).
  - apply reachable_mount.
  - reflexivity.
  - reflexivity.
  - reflexivity.
Defined.

Lemma interactions_touch_only_the_selection_witness :
  (exists before,
     afterEvents isoDate
       [Settle (Fulfilled (okResponse [imageA; imageB; imageC]));
        Click [0%nat; 1%nat]] = mount before)
  \/ exists st',
       component
         (afterEvents isoDate
            [Settle (Fulfilled (okResponse [imageA; imageB; imageC]));
             Click [0%nat; 1%nat]]) = Some st'
       /\ inflight
            (afterEvents isoDate
               [Settle (Fulfilled (okResponse [imageA; imageB; imageC]));
                Click [0%nat; 1%nat]])
          = inflight
              (afterEvents isoDate
                 [Settle (Fulfilled (okResponse [imageA; imageB; imageC]))])
       /\ images st' = [imageA; imageB; imageC]
       /\ loading st' = false
       /\ error st' = None.
Proof.
  apply (interactions_touch_only_the_selection isoDate
           (afterEvents isoDate
              [Settle (Fulfilled (okResponse [imageA; imageB; imageC]))])
           (galleryState None None) (Click [0%nat; 1%nat])).
  - apply afterEvents_reachable.
  - reflexivity.
  - reflexivity.
  - reflexivity.
Defined.

Lemma one_tile_per_record_in_order_witness :
  handlersAlong (tilePath 2)
    (page [grid isoDate (galleryState None None);
           Elem "AnimatePresence" EmptyString None []])
  = Some [openImage EmptyString 2].
Proof.
  apply (proj2 (proj2 (proj2
           (one_tile_per_record_in_order isoDate (galleryState None None))))
           2 imageC []).
  reflexivity.
Defined.

Lemma view_after_settling_witness :
  exists w' st',
    step isoDate (mount [])
         (Settle (Fulfilled (okResponse [imageA; imageB; imageC]))) = Next w'
    /\ component w' = Some st'
    /\ inflight w' = false
    /\ render isoDate st'
       = Some (page [grid isoDate st';
                     Elem "AnimatePresence" EmptyString None []]).
Proof.
  apply (view_after_settling isoDate (mount []) initialState
           (Fulfilled (okResponse [imageA; imageB; imageC]))).
  - apply reachable_mount.
  - reflexivity.
  - reflexivity.
Defined.

Lemma arrow_key_cycle_restores_state_witness :
  exists w',
    steps isoDate
          (afterEvents isoDate
             [Settle (Fulfilled (okResponse [imageA; imageB; imageD]));
              Click [0%nat; 1%nat]])
          [KeyDown "ArrowRight"; KeyDown "ArrowRight"; KeyDown "ArrowRight"]
      = Some w'
    /\ component w'
       = Some (mkState [imageA; imageB; imageD] (Some "b.jpg") (Some 1)
                       false None).
Proof.
  apply (arrow_key_cycle_restores_state isoDate
           (afterEvents isoDate
              [Settle (Fulfilled (okResponse [imageA; imageB; imageD]));
               Click [0%nat; 1%nat]])
           (mkState [imageA; imageB; imageD] (Some "b.jpg") (Some 1)
                    false None) next).
  - apply afterEvents_reachable.
  - reflexivity.
  - reflexivity.
  - intros img [<- | [<- | [<- | []]]]; reflexivity.
Defined.

Lemma success_logs_at_most_five_dates_witness :
  fetchImages_resume isoDate (Fulfilled (okResponse [imageA; imageB]))
  = ([ConsoleLogData "Fetched gallery images:" [imageA; imageB];
      ConsoleLog "Image dates (should be newest first):";
      ConsoleLog "1. First: 2024-01-01";
      ConsoleLog "2. null: 2024-01-02";
      SetImages [imageA; imageB]; SetLoading false], inl tt)
  /\ (3 <= 6)%nat.
Proof.
  apply (success_logs_at_most_five_dates isoDate
           (okResponse [imageA; imageB]) [imageA; imageB]);
    reflexivity.
Defined.
